(** * oreilly-books: the concurrent page fetcher and its writers

    A shallow embedding of [main.go] and of the earlier revision of the same
    program, whose [main] closes the products channel after [wg.Wait()].

    - Part I   : Go values, [formatCategories], the two writers, the
                 request of a page and [fetchData].
    - Part II  : the goroutines of [main] as an interleaving transition
                 system (one action is one step of one goroutine), and the
                 invariants as definitions.
    - Part III : the invariants hold in every reachable state.
    - Part IV  : the properties of the specification.
    - Part V   : further properties of the code: the writers and
                 [fetchData] under an arbitrary environment, what the runs
                 of both revisions leave behind, how they end.
    - Part VI  : the program run on concrete inputs. *)

From Stdlib Require Import String Ascii List ZArith Lia Bool Arith.
From Stdlib Require Import Decimal DecimalString DecimalNat.
From stdpp Require Import base list.
Import ListNotations.
Open Scope string_scope.
Open Scope list_scope.

(* ===================================================================== *)
(** * Part I: values, formatCategories, writers, requests                 *)
(* ===================================================================== *)

(** ** The data model ([type Product struct], [type Response struct]) *)

Record CustomAttributesT := mkCustomAttributes {
  Publishers : list string;
  PublicationDate : string
}.

Record Product := mkProduct {
  ProductID : string;
  URL : string;
  Language : string;
  Title : string;
  Type_ : string;
  Description : string;
  Categories : list (list string);
  CoverImage : string;
  CustomAttributes : CustomAttributesT;
  Authors : list string
}.

Record DataT := mkData {
  Products : list Product;
  Total : Z;
  Start : Z
}.

Record Response := mkResponse {
  Message : string;
  Data : DataT
}.

(** ** Results of Go calls

    A Go call either returns or panics.  The two run-time checks that
    [formatCategories] can trip are the index check of [category[0]] and
    the bounds check of the slice expression [formatted[:n]]. *)

Inductive PanicMsg :=
| IndexOutOfRange
| SliceBoundsOutOfRange.

Inductive GoResult (A : Type) :=
| Return (a : A)
| Panic (msg : PanicMsg).
Arguments Return {A} a.
Arguments Panic {A} msg.

#[global] Instance go_ret : MRet GoResult := fun A a => Return a.

#[global] Instance go_bind : MBind GoResult := fun A B k r =>
  match r with
  | Return a => k a
  | Panic m => Panic m
  end.

(** [category[i]] on a slice of strings. *)
Definition index_at (category : list string) (i : nat) : GoResult string :=
  match nth_error category i with
  | Some c => Return c
  | None => Panic IndexOutOfRange
  end.

(** [s[:hi]] on a string: Go checks [0 <= hi <= len(s)]; [hi] is an [int],
    so [len(s) - 3] is computed in Z and may be negative. *)
Definition slice_to (s : string) (hi : Z) : GoResult string :=
  if (hi <? 0)%Z || (Z.of_nat (String.length s) <? hi)%Z
  then Panic SliceBoundsOutOfRange
  else Return (substring 0 (Z.to_nat hi) s).

(** ** formatCategories *)

(** The body of [for _, category := range categories], threaded through the
    accumulator [formatted].  [fmt.Sprintf("%s > ", x)] is [x ++ " > "]. *)
Fixpoint formatCategories_loop (categories : list (list string))
    (formatted : string) : GoResult string :=
  match categories with
  | [] => Return formatted
  | category :: rest =>
      if (0 <? List.length category)%nat then
        c0 ← index_at category 0;
        formatCategories_loop rest (formatted ++ (c0 ++ " > "))%string
      else formatCategories_loop rest formatted
  end.

Definition formatCategories (categories : list (list string)) : GoResult string :=
  formatted ← formatCategories_loop categories "";
  if (0 <? String.length formatted)%nat
  then slice_to formatted (Z.of_nat (String.length formatted) - 3)
  else Return formatted.

(** What the function computes, said directly: the first label of every
    path that has one, joined by [" > "]. *)
Definition first_labels (categories : list (list string)) : list string :=
  flat_map (fun category => match category with [] => [] | c0 :: _ => [c0] end)
           categories.

(** What the loop has appended to [formatted] when it ends: every first
    label followed by the separator. *)
Fixpoint labels_sep (labels : list string) : string :=
  match labels with
  | [] => ""
  | c0 :: rest => (c0 ++ " > " ++ labels_sep rest)%string
  end.

Definition flattened (categories : list (list string)) : string :=
  String.concat " > " (first_labels categories).

(** [fmt.Sprintf("%v", xs)] for [xs []string]: the elements separated by one
    space, in square brackets. *)
Definition sprint_v (xs : list string) : string :=
  ("[" ++ String.concat " " xs ++ "]")%string.

(** [strings.Join]. *)
Definition strings_Join (elems : list string) (sep : string) : string :=
  String.concat sep elems.

Definition nl : string := String (ascii_of_nat 10) EmptyString.

(** ** The environment of the writers

    The writers talk to the operating system through [os.Create],
    [csv.Writer.Write], [csv.Writer.Flush], [File.WriteString] and
    [File.Close].  The world is the trace of these calls; whether a call
    fails is the environment's choice, given by an oracle on the position of
    the call in the trace.  The results of [Flush] and [Close] are dropped
    by the program (both are deferred), so they carry no outcome. *)

Inductive IOEvent :=
| EvCreate (name : string) (ok : bool)
| EvCsvWrite (name : string) (record : list string) (ok : bool)
| EvCsvFlush (name : string)
| EvWriteString (name : string) (text : string) (ok : bool)
| EvClose (name : string).

Definition World := list IOEvent.

(** The file an event is about. *)
Definition event_file (ev : IOEvent) : string :=
  match ev with
  | EvCreate name _ | EvCsvWrite name _ _ | EvCsvFlush name
  | EvWriteString name _ _ | EvClose name => name
  end.

(** Go's [error] values that the writers can return. *)
Inductive error :=
| ErrCreate (name : string)
| ErrCsvWrite (name : string)
| ErrWriteString (name : string).

(** The records a CSV file holds after a trace: [os.Create] truncates, every
    accepted [Write] appends one record. *)
Definition csv_records (name : string) (w : World) : list (list string) :=
  fold_left (fun acc ev =>
    match ev with
    | EvCreate n true => if String.eqb n name then [] else acc
    | EvCsvWrite n record true => if String.eqb n name then acc ++ [record] else acc
    | _ => acc
    end) w [].

(** The text a file holds after a trace. *)
Definition file_text (name : string) (w : World) : string :=
  fold_left (fun acc ev =>
    match ev with
    | EvCreate n true => if String.eqb n name then "" else acc
    | EvWriteString n text true => if String.eqb n name then (acc ++ text)%string else acc
    | _ => acc
    end) w "".

Section Writers.

(** [io_fail k]: the call that would become event number [k] fails. *)
Variable io_fail : nat -> bool.

Definition os_Create (name : string) (w : World) : option error * World :=
  if io_fail (length w)
  then (Some (ErrCreate name), w ++ [EvCreate name false])
  else (None, w ++ [EvCreate name true]).

Definition csv_Write (name : string) (record : list string) (w : World)
    : option error * World :=
  if io_fail (length w)
  then (Some (ErrCsvWrite name), w ++ [EvCsvWrite name record false])
  else (None, w ++ [EvCsvWrite name record true]).

Definition file_WriteString (name text : string) (w : World)
    : option error * World :=
  if io_fail (length w)
  then (Some (ErrWriteString name), w ++ [EvWriteString name text false])
  else (None, w ++ [EvWriteString name text true]).

(** *** writeCSV *)

Definition csv_header : list string :=
  ["Title"; "Publication Date"; "URL"; "Type"; "Language"; "Categories";
   "Cover Image"; "Publishers"; "Authors"].

(** The slice literal [row := []string{...}] of the loop body. *)
Definition csv_row (product : Product) (categories : string) : list string :=
  [ Title product;
    PublicationDate (CustomAttributes product);
    URL product;
    Type_ product;
    Language product;
    categories;
    CoverImage product;
    sprint_v (Publishers (CustomAttributes product));
    sprint_v (Authors product) ].

(** The record of a product: its row with the flattened categories. *)
Definition csv_record (product : Product) : list string :=
  csv_row product (flattened (Categories product)).

(** [for _, product := range products { ... }]: returns the error of the
    first [Write] that fails, [nil] ([None]) at the end of the slice. *)
Fixpoint writeCSV_rows (filename : string) (products : list Product) (w : World)
    : GoResult (option error) * World :=
  match products with
  | [] => (Return None, w)
  | product :: rest =>
      match formatCategories (Categories product) with
      | Panic m => (Panic m, w)
      | Return categories =>
          match csv_Write filename (csv_row product categories) w with
          | (Some err, w') => (Return (Some err), w')
          | (None, w') => writeCSV_rows filename rest w'
          end
      end
  end.

(** [writeCSV(filename, products)] of main.go.  The two deferred calls run
    in reverse order of their [defer] statements whenever the function has
    got past them, on a return as on a panic. *)
Definition writeCSV (filename : string) (products : list Product) (w : World)
    : GoResult (option error) * World :=
  match os_Create filename w with
  | (Some err, w1) => (Return (Some err), w1)
  | (None, w1) =>
      let '(r, w2) :=
        match csv_Write filename csv_header w1 with
        | (Some err, w2) => (Return (Some err), w2)
        | (None, w2) => writeCSV_rows filename products w2
        end in
      (r, w2 ++ [EvCsvFlush filename; EvClose filename])
  end.

(** *** writeMarkdown *)

Definition md_header : list string := ["Title"; "Publication Date"; "Categories"].

(** [separator := make([]string, len(header))] followed by
    [for i := range separator { separator[i] = "---" }]. *)
Definition md_separator : list string :=
  fold_left (fun separator i => <[i := "---"]> separator)
            (seq 0 (length md_header))
            (replicate (length md_header) "").

Definition md_line (cells : list string) : string :=
  ("| " ++ strings_Join cells " | " ++ " |" ++ nl)%string.

(** [fmt.Sprintf("| [%s](%s) | %s | %s |\n", title, url, date, categories)]. *)
Definition md_item (product : Product) (categories : string) : string :=
  ("| [" ++ Title product ++ "](" ++ URL product ++ ") | "
    ++ PublicationDate (CustomAttributes product) ++ " | "
    ++ categories ++ " |" ++ nl)%string.

Fixpoint writeMarkdown_rows (filename : string) (products : list Product) (w : World)
    : GoResult (option error) * World :=
  match products with
  | [] => (Return None, w)
  | product :: rest =>
      match formatCategories (Categories product) with
      | Panic m => (Panic m, w)
      | Return categories =>
          match file_WriteString filename (md_item product categories) w with
          | (Some err, w') => (Return (Some err), w')
          | (None, w') => writeMarkdown_rows filename rest w'
          end
      end
  end.

Definition writeMarkdown (filename : string) (products : list Product) (w : World)
    : GoResult (option error) * World :=
  match os_Create filename w with
  | (Some err, w1) => (Return (Some err), w1)
  | (None, w1) =>
      let '(r, w2) :=
        match file_WriteString filename (md_line md_header) w1 with
        | (Some err, w2) => (Return (Some err), w2)
        | (None, w2) =>
            match file_WriteString filename (md_line md_separator) w2 with
            | (Some err, w3) => (Return (Some err), w3)
            | (None, w3) => writeMarkdown_rows filename products w3
            end
        end in
      (r, w2 ++ [EvClose filename])
  end.

End Writers.

(** ** What the files are meant to hold *)


(** The line of a product in the Markdown file. *)
Definition md_record (product : Product) : string :=
  md_item product (flattened (Categories product)).

(** The lines of the Markdown file of a collection: the header line, the
    separator line, then the line of every product. *)
Definition md_lines (products : list Product) : list string :=
  md_line md_header :: md_line md_separator :: map md_record products.

(** Lines one after the other. *)
Definition text_of (lines : list string) : string :=
  fold_right String.append "" lines.

(** ** The request for a page *)

(** [fmt.Sprintf("%d", n)] for an [int] that is not negative: its decimal
    digits, most significant first, without leading zeros. *)
Definition sprint_d (n : nat) : string :=
  NilEmpty.string_of_uint (Nat.to_uint n).

Definition pageSize : nat := 100.

(** [baseURL] of [main]: the format string with [pageSize] in place of
    its [%d]. *)
Definition baseURL : string :=
  ("https://www.oreilly.com/search/api/search/?q=*&type=book&order_by=published_at&rows="
   ++ sprint_d pageSize ++ "&language=en&page=")%string.

(** [url := fmt.Sprintf("%s%d", baseURL, page)] of a task. *)
Definition page_url (base : string) (page : nat) : string :=
  (base ++ sprint_d page)%string.

(** ** fetchData

    [fetchData] talks to the network through [http.NewRequest],
    [Header.Add], [client.Do], the decoder of [encoding/json] and
    [resp.Body.Close].  As for the writers, the trace of these calls is
    what the function does to the world, and the outcome of a call is the
    environment's choice. *)
Module Net.

Inductive Event :=
| EvNewRequest (method url : string) (ok : bool)
| EvHeaderAdd (key value : string)
| EvDo (url : string) (ok : bool)
| EvDecode (ok : bool)
| EvBodyClose.

(** The [error] values [fetchData] can return. *)
Inductive error :=
| ErrNewRequest
| ErrDo
| ErrDecode.

(** The environment: whether [http.NewRequest] accepts an address,
    whether [client.Do] gets an answer from it, and what the decoder makes
    of the body of the answer ([None]: it returns an error). *)
Record Env := mkEnv {
  request_ok : string -> bool;
  transport_ok : string -> bool;
  decoded : string -> option Response
}.

(** [Response{}]. *)
Definition zero : Response := mkResponse "" (mkData [] 0 0).

Definition referer : string := "https://www.oreilly.com/".

Definition user_agent : string :=
  "Mozilla/5.0 (Macintosh; Intel Mac OS X 10.15; rv:133.0) Gecko/20100101 Firefox/133.0".

(** [fetchData(apiURL)]: the pair it returns and the calls it makes.
    [defer resp.Body.Close()] is registered once [client.Do] has returned
    without error, and so runs when decoding fails as when it succeeds. *)
Definition fetchData (env : Env) (apiURL : string)
    : (Response * option error) * list Event :=
  if request_ok env apiURL then
    let built := [ EvNewRequest "GET" apiURL true;
                   EvHeaderAdd "referer" referer;
                   EvHeaderAdd "user-agent" user_agent ] in
    if transport_ok env apiURL then
      match decoded env apiURL with
      | Some response =>
          ((response, None), built ++ [EvDo apiURL true; EvDecode true; EvBodyClose])
      | None =>
          ((zero, Some ErrDecode),
           built ++ [EvDo apiURL true; EvDecode false; EvBodyClose])
      end
    else ((zero, Some ErrDo), built ++ [EvDo apiURL false])
  else ((zero, Some ErrNewRequest), [EvNewRequest "GET" apiURL false]).

(** The response bodies open after a trace: [client.Do] opens one when it
    succeeds, [Close] closes one. *)
Fixpoint open_bodies (tr : list Event) (n : nat) : nat :=
  match tr with
  | [] => n
  | EvDo _ true :: rest => open_bodies rest (S n)
  | EvBodyClose :: rest => open_bodies rest (pred n)
  | _ :: rest => open_bodies rest n
  end.

(** The requests sent by a trace. *)
Definition requests (tr : list Event) : list string :=
  flat_map (fun ev => match ev with EvDo url _ => [url] | _ => [] end) tr.

(** What the remote end is to a task: the response of a page when
    [fetchData] returns no error for its address. *)
Definition remote (env : Env) (page : nat) : option Response :=
  match fst (fetchData env (page_url baseURL page)) with
  | (response, None) => Some response
  | (_, Some _) => None
  end.

End Net.

(** ** The columns of a product *)

(** Two products that agree in every field that [writeCSV] reads, apart
    from the authors. *)
Definition same_but_authors (p q : Product) : Prop :=
  Title p = Title q /\
  PublicationDate (CustomAttributes p) = PublicationDate (CustomAttributes q) /\
  URL p = URL q /\ Type_ p = Type_ q /\ Language p = Language q /\
  Categories p = Categories q /\ CoverImage p = CoverImage q /\
  Publishers (CustomAttributes p) = Publishers (CustomAttributes q).

(* ===================================================================== *)
(** * Part II: the goroutines of main as a transition system             *)
(* ===================================================================== *)

(** The repository holds two revisions of the program.  [Current] is
    main.go: a goroutine runs [fetchProducts] and then closes
    [productsChan], a second goroutine drains the channel into
    [allProducts], and [main] writes both files after [wg.Wait()].
    [Earlier] is the older file: [fetchProducts] itself defers [wg.Done()],
    [writeCSV] drains the channel, and [main] closes the channel after
    [wg.Wait()].  [fetchProducts] and the tasks it starts are the same in
    both apart from that deferred call. *)
Inductive Revision := Current | Earlier.

(** How the process ended. *)
Inductive Exit :=
| ExitOK                       (* main returned *)
| ExitFatal (err : error)      (* log.Fatalf: os.Exit(1) *)
| ExitPanic.                   (* an unrecovered panic *)

Inductive LogEntry :=
| LogFetchError (page : nat)             (* "Error fetching data from page %d: %v" *)
| LogPage (page : nat) (n : nat)         (* "page: %d, %s, %d" *)
| LogFatal (err : error)                 (* "Error writing ...: %v" *)
| LogPrintln.                            (* the final fmt.Println *)

(** Program points of the goroutine [go func(page int) { ... }(page)].
    The flag of [TRelease] and [TDone] says that the goroutine is
    panicking: its deferred calls still run, then the process dies. *)
Inductive TaskPc :=
| TStart                          (* launched, before fetchData(url) *)
| TFetching                       (* inside fetchData(url) *)
| TSend (batch : list Product)    (* at productsChan <- response.Data.Products *)
| TRelease (panicking : bool)     (* at the deferred <-sem *)
| TDone (panicking : bool)        (* at the deferred wg.Done() *)
| TDie                            (* panic reaches the top of the goroutine *)
| TExit.                          (* returned *)

Record Task := mkTask { t_page : nat; t_pc : TaskPc }.

(** Program points of the goroutine that runs [fetchProducts]. *)
Inductive DispPc :=
| DIdle                    (* not started yet *)
| DLoop (page : nat)       (* at the test page < pageMax, then sem <- struct{}{} *)
| DAdd (page : nat)        (* at wg.Add(1) *)
| DGo (page : nat)         (* at go func(page int){...}(page) *)
| DClose                   (* Current: at close(productsChan) *)
| DDone (panicking : bool) (* at the deferred wg.Done() *)
| DDie
| DExit.

(** Program points of the goroutine that drains [productsChan]. *)
Inductive ConsPc :=
| CIdle
| CCreate                        (* Earlier: writeCSV at os.Create *)
| CHeader                        (* Earlier: at writer.Write(header) *)
| CRange                         (* at the receive of range productsChan *)
| CRows (rest : list Product)    (* Earlier: inside for _, product := range products *)
| CDone                          (* Current: at the deferred wg.Done() *)
| CSendDone                      (* Earlier: at done <- struct{}{} *)
| CDie
| CExit.

(** Program points of [main]. *)
Inductive MainPc :=
| MAddD        (* wg.Add(1) before the fetching goroutine *)
| MGoD         (* go fetchProducts / go func(){...} *)
| MAddC        (* Current: wg.Add(1) before the draining goroutine *)
| MGoC         (* go func(){...} for the consumer *)
| MWait        (* wg.Wait() *)
| MClose       (* Earlier: close(productsChan) *)
| MRecvDone    (* Earlier: <-done *)
| MWriteCSV    (* Current: writeCSV(csvFilename, allProducts) *)
| MWriteMD     (* Current: writeMarkdown(markdownFilename, allProducts) *)
| MPrintln.    (* fmt.Println *)

Record State := mkState {
  m_pc : MainPc;
  d_pc : DispPc;
  c_pc : ConsPc;
  tasks : list Task;                    (* task goroutines, in launch order *)
  sem : nat;                            (* tokens held in the channel sem *)
  wg : nat;                             (* the WaitGroup counter *)
  chan_buf : list (list Product);       (* productsChan: buffered batches *)
  chan_closed : bool;                   (* productsChan: closed? *)
  allProducts : list Product;
  log : list LogEntry;
  world : World;
  status : option Exit;                 (* None while the process runs *)
  fetched : list nat;                   (* history: pages passed to fetchData *)
  sent : list nat                       (* history: pages whose batch entered productsChan *)
}.

Definition set_m_pc v s := mkState v (d_pc s) (c_pc s) (tasks s) (sem s) (wg s)
  (chan_buf s) (chan_closed s) (allProducts s) (log s) (world s) (status s) (fetched s) (sent s).
Definition set_d_pc v s := mkState (m_pc s) v (c_pc s) (tasks s) (sem s) (wg s)
  (chan_buf s) (chan_closed s) (allProducts s) (log s) (world s) (status s) (fetched s) (sent s).
Definition set_c_pc v s := mkState (m_pc s) (d_pc s) v (tasks s) (sem s) (wg s)
  (chan_buf s) (chan_closed s) (allProducts s) (log s) (world s) (status s) (fetched s) (sent s).
Definition set_tasks v s := mkState (m_pc s) (d_pc s) (c_pc s) v (sem s) (wg s)
  (chan_buf s) (chan_closed s) (allProducts s) (log s) (world s) (status s) (fetched s) (sent s).
Definition set_sem v s := mkState (m_pc s) (d_pc s) (c_pc s) (tasks s) v (wg s)
  (chan_buf s) (chan_closed s) (allProducts s) (log s) (world s) (status s) (fetched s) (sent s).
Definition set_wg v s := mkState (m_pc s) (d_pc s) (c_pc s) (tasks s) (sem s) v
  (chan_buf s) (chan_closed s) (allProducts s) (log s) (world s) (status s) (fetched s) (sent s).
Definition set_chan_buf v s := mkState (m_pc s) (d_pc s) (c_pc s) (tasks s) (sem s) (wg s)
  v (chan_closed s) (allProducts s) (log s) (world s) (status s) (fetched s) (sent s).
Definition set_chan_closed v s := mkState (m_pc s) (d_pc s) (c_pc s) (tasks s) (sem s) (wg s)
  (chan_buf s) v (allProducts s) (log s) (world s) (status s) (fetched s) (sent s).
Definition set_allProducts v s := mkState (m_pc s) (d_pc s) (c_pc s) (tasks s) (sem s) (wg s)
  (chan_buf s) (chan_closed s) v (log s) (world s) (status s) (fetched s) (sent s).
Definition add_log e s := mkState (m_pc s) (d_pc s) (c_pc s) (tasks s) (sem s) (wg s)
  (chan_buf s) (chan_closed s) (allProducts s) (log s ++ [e]) (world s) (status s) (fetched s) (sent s).
Definition set_world v s := mkState (m_pc s) (d_pc s) (c_pc s) (tasks s) (sem s) (wg s)
  (chan_buf s) (chan_closed s) (allProducts s) (log s) v (status s) (fetched s) (sent s).
Definition set_status v s := mkState (m_pc s) (d_pc s) (c_pc s) (tasks s) (sem s) (wg s)
  (chan_buf s) (chan_closed s) (allProducts s) (log s) (world s) v (fetched s) (sent s).
Definition add_fetched p s := mkState (m_pc s) (d_pc s) (c_pc s) (tasks s) (sem s) (wg s)
  (chan_buf s) (chan_closed s) (allProducts s) (log s) (world s) (status s) (fetched s ++ [p]) (sent s).
Definition add_sent p s := mkState (m_pc s) (d_pc s) (c_pc s) (tasks s) (sem s) (wg s)
  (chan_buf s) (chan_closed s) (allProducts s) (log s) (world s) (status s) (fetched s) (sent s ++ [p]).

(** The task goroutine number [g] moves to program point [pc]. *)
Definition set_task (g : nat) (t : Task) (pc : TaskPc) (s : State) : State :=
  set_tasks (<[g := mkTask (t_page t) pc]> (tasks s)) s.

Inductive Actor :=
| AMain
| ADispatcher
| AConsumer
| ATask (g : nat).

(** ** Concrete inputs

    One book, three remote ends, three environments of the writers, the
    schedules and the states they lead to, used to run the program below. *)

Definition bookA : Product :=
  mkProduct "9781491941959" "https://www.oreilly.com/library/view/-/9781491941959/"
            "en" "Concurrency in Go" "book" ""
            [["Programming"; "Go"]; ["Web"]]
            "https://learning.oreilly.com/covers/9781491941959/"
            (mkCustomAttributes ["O'Reilly Media, Inc."] "2017-07-19")
            ["Katherine Cox-Buday"].

(** Every page answers with one book. *)
Definition fetch_ok (page : nat) : option Response :=
  Some (mkResponse "success" (mkData [bookA] 1 0)).

(** Page 0 fails, the others answer. *)
Definition fetch_fail0 (page : nat) : option Response :=
  match page with
  | 0 => None
  | _ => fetch_ok page
  end.

Definition never_fails (k : nat) : bool := false.

(** The first call to the operating system fails. *)
Definition first_fails (k : nat) : bool := Nat.eqb k 0.

Definition a_date : string := "2006-01-02".

(** [main] starts both goroutines and reaches [wg.Wait()]. *)
Definition sched_startup : list Actor := [AMain; AMain; AMain; AMain].

(** The dispatcher acquires a token, adds to the WaitGroup, starts a task. *)
Definition sched_launch : list Actor := [ADispatcher; ADispatcher; ADispatcher].

(** main.go, one page: the dispatcher leaves its loop and closes the
    channel while task 0 has not yet called [fetchData]. *)
Definition sched_close_early : list Actor :=
  sched_startup ++ sched_launch ++ [ADispatcher; ADispatcher].

Definition st_closed_early : State :=
  mkState MWait (DDone false) CRange [mkTask 0 TStart] 1 3 [] true [] [] [] None [] [].

(** Then task 0 fetches its page, meets the closed channel at its send,
    runs its deferred calls and takes the process down. *)
Definition sched_task_panics : list Actor :=
  [ATask 0; ATask 0; ATask 0; ATask 0; ATask 0; ATask 0].

Definition st_crashed : State :=
  mkState MWait (DDone false) CRange [mkTask 0 TDie] 0 2 [] true []
          [LogPage 0 1] [] (Some ExitPanic) [0] [].

(** Or the dispatcher and the consumer finish, the panicking task gets as
    far as its deferred [wg.Done()], and [main] wins the race to its end. *)
Definition sched_main_wins : list Actor :=
  sched_close_early
  ++ [ADispatcher; AConsumer; AConsumer]
  ++ [ATask 0; ATask 0; ATask 0; ATask 0; ATask 0]
  ++ [AMain; AMain; AMain; AMain].

Definition header_only_world : World :=
  [ EvCreate "oreilly-book-list-2006-01-02.csv" true;
    EvCsvWrite "oreilly-book-list-2006-01-02.csv" csv_header true;
    EvCsvFlush "oreilly-book-list-2006-01-02.csv";
    EvClose "oreilly-book-list-2006-01-02.csv";
    EvCreate "oreilly-book-list-2006-01-02.md" true;
    EvWriteString "oreilly-book-list-2006-01-02.md" (md_line md_header) true;
    EvWriteString "oreilly-book-list-2006-01-02.md" (md_line md_separator) true;
    EvClose "oreilly-book-list-2006-01-02.md" ].

Definition st_main_won : State :=
  mkState MPrintln DExit CExit [mkTask 0 TDie] 0 0 [] true []
          [LogPage 0 1; LogPrintln] header_only_world (Some ExitOK) [0] [].

(** Two pages, ceiling 1: task 0 is inside [fetchData]. *)
Definition sched_fetching : list Actor :=
  sched_startup ++ sched_launch ++ [ATask 0].

Definition st_fetching : State :=
  mkState MWait (DLoop 1) CRange [mkTask 0 TFetching] 1 3 [] false [] [] [] None [0] [].

(** Two pages, ceiling 1, page 0 fails: both tasks run to their end one
    after the other, the channel is closed after them, [wg.Wait()] returns. *)
Definition sched_two_pages : list Actor :=
  sched_startup
  ++ sched_launch ++ [ATask 0; ATask 0; ATask 0; ATask 0]
  ++ sched_launch ++ [ATask 1; ATask 1; ATask 1; AConsumer; ATask 1; ATask 1]
  ++ [ADispatcher; ADispatcher; ADispatcher; AConsumer; AConsumer; AMain].

Definition st_two_pages : State :=
  mkState MWriteCSV DExit CExit [mkTask 0 TExit; mkTask 1 TExit] 0 0 [] true [bookA]
          [LogFetchError 0; LogPage 1 1] [] None [0; 1] [1].

(** No page: the run to the end of [main]. *)
Definition sched_zero_pages : list Actor :=
  sched_startup
  ++ [ADispatcher; ADispatcher; ADispatcher; AConsumer; AConsumer]
  ++ [AMain; AMain; AMain; AMain].

Definition st_zero_pages : State :=
  mkState MPrintln DExit CExit [] 0 0 [] true [] [LogPrintln] header_only_world
          (Some ExitOK) [] [].

(** No page, and [os.Create] of the CSV file fails. *)
Definition sched_csv_fails : list Actor :=
  sched_startup
  ++ [ADispatcher; ADispatcher; ADispatcher; AConsumer; AConsumer]
  ++ [AMain; AMain].

Definition st_csv_failed : State :=
  mkState MWriteCSV DExit CExit [] 0 0 [] true []
          [LogFatal (ErrCreate "oreilly-book-list-2006-01-02.csv")]
          [EvCreate "oreilly-book-list-2006-01-02.csv" false]
          (Some (ExitFatal (ErrCreate "oreilly-book-list-2006-01-02.csv"))) [] [].

(** The earlier revision, one failing page: [main] has closed the channel. *)
Definition sched_earlier : list Actor :=
  [AMain; AMain; AMain]
  ++ sched_launch ++ [ATask 0; ATask 0; ATask 0; ATask 0]
  ++ [ADispatcher; ADispatcher; AMain; AMain].

Definition st_earlier_closed : State :=
  mkState MRecvDone DExit CCreate [mkTask 0 TExit] 0 0 [] true []
          [LogFetchError 0] [] None [0] [].

(** The earlier revision, one page answering with one book: the run to the
    end of [main]. *)
Definition sched_earlier_run : list Actor :=
  [AMain; AMain; AMain]
  ++ sched_launch ++ [ATask 0; ATask 0; ATask 0; ATask 0; ATask 0]
  ++ [ADispatcher; ADispatcher; AMain; AMain]
  ++ [AConsumer; AConsumer; AConsumer; AConsumer; AConsumer; AConsumer]
  ++ [AMain; AMain].

Definition st_earlier_done : State :=
  mkState MPrintln DExit CExit [mkTask 0 TExit] 0 0 [] true []
          [LogPage 0 1; LogPrintln]
          [ EvCreate "oreilly-book-list.csv" true;
            EvCsvWrite "oreilly-book-list.csv" csv_header true;
            EvCsvWrite "oreilly-book-list.csv" (csv_record bookA) true;
            EvCsvFlush "oreilly-book-list.csv";
            EvClose "oreilly-book-list.csv" ]
          (Some ExitOK) [0] [0].

(** A remote end that answers page 0 with one batch and every other page
    with another. *)
Definition fetch_pair (batch0 batch1 : list Product) (page : nat) : option Response :=
  Some (mkResponse "success"
          (mkData (match page with 0 => batch0 | _ => batch1 end) 2 0)).

(** main.go, two pages, ceiling 2: both tasks are launched, then they run
    to their end one after the other, task 0 first or task 1 first; the
    channel is closed after them, the consumer drains it and [wg.Wait()]
    returns. *)
Definition sched_both_launched : list Actor :=
  sched_startup ++ sched_launch ++ sched_launch.

Definition sched_task (g : nat) : list Actor :=
  [ATask g; ATask g; ATask g; ATask g; ATask g].

Definition sched_drain : list Actor :=
  [ADispatcher; ADispatcher; ADispatcher;
   AConsumer; AConsumer; AConsumer; AConsumer; AMain].

Definition sched_page_order : list Actor :=
  sched_both_launched ++ sched_task 0 ++ sched_task 1 ++ sched_drain.

Definition sched_reverse_order : list Actor :=
  sched_both_launched ++ sched_task 1 ++ sched_task 0 ++ sched_drain.


(** The first book with the name of its author as two authors. *)
Definition bookA_split : Product :=
  mkProduct "9781491941959" "https://www.oreilly.com/library/view/-/9781491941959/"
            "en" "Concurrency in Go" "book" ""
            [["Programming"; "Go"]; ["Web"]]
            "https://learning.oreilly.com/covers/9781491941959/"
            (mkCustomAttributes ["O'Reilly Media, Inc."] "2017-07-19")
            ["Katherine"; "Cox-Buday"].

(** main.go, one page answering with one book, and the environment in
    which the ninth call to the operating system fails: [writeCSV] goes
    through (calls 0 to 4), [writeMarkdown] creates its file and writes the
    two head lines (calls 5 to 7), and its [WriteString] of the line of the
    book fails. *)
Definition ninth_fails (k : nat) : bool := Nat.eqb k 8.

Definition sched_md_ready : list Actor :=
  sched_startup ++ sched_launch ++ sched_task 0
  ++ [ADispatcher; ADispatcher; ADispatcher; AConsumer; AConsumer; AConsumer]
  ++ [AMain; AMain].

Definition csv_done_world : World :=
  [ EvCreate "oreilly-book-list-2006-01-02.csv" true;
    EvCsvWrite "oreilly-book-list-2006-01-02.csv" csv_header true;
    EvCsvWrite "oreilly-book-list-2006-01-02.csv" (csv_record bookA) true;
    EvCsvFlush "oreilly-book-list-2006-01-02.csv";
    EvClose "oreilly-book-list-2006-01-02.csv" ].

(** [main] is at its call of [writeMarkdown]. *)
Definition st_md_ready : State :=
  mkState MWriteMD DExit CExit [mkTask 0 TExit] 0 0 [] true [bookA]
          [LogPage 0 1] csv_done_world None [0] [0].

(** [writeMarkdown] has returned the error and [log.Fatalf] has ended the
    process. *)
Definition st_md_failed : State :=
  mkState MWriteMD DExit CExit [mkTask 0 TExit] 0 0 [] true [bookA]
          [LogPage 0 1; LogFatal (ErrWriteString "oreilly-book-list-2006-01-02.md")]
          (csv_done_world
           ++ [ EvCreate "oreilly-book-list-2006-01-02.md" true;
                EvWriteString "oreilly-book-list-2006-01-02.md" (md_line md_header) true;
                EvWriteString "oreilly-book-list-2006-01-02.md" (md_line md_separator) true;
                EvWriteString "oreilly-book-list-2006-01-02.md" (md_record bookA) false;
                EvClose "oreilly-book-list-2006-01-02.md" ])
          (Some (ExitFatal (ErrWriteString "oreilly-book-list-2006-01-02.md"))) [0] [0].

(** ** One step of one goroutine

    Channels.  A send on a closed channel panics, also when the sender was
    already blocked on it; on an open channel it proceeds when the buffer
    has room and blocks otherwise; a receive takes the oldest buffered
    value, and [range] ends when the channel is closed and empty.  A step
    that blocks is a step that is not enabled ([None]).  For a capacity of
    zero a Go send also proceeds when a receiver is ready; on [sem] the only
    receivers are tasks, which exist only after a send on [sem], so with
    [maxConcurrent = 0] no task is ever started and no send is ever
    attempted on [productsChan]: the queue reading is exact there too.  The
    unbuffered channel [done] of the earlier revision is a rendezvous, taken
    as one joint step of [main] and the consumer. *)

Section Machine.

Variable rev : Revision.
Variable pageMax : nat.          (* const pageMax = 100 *)
Variable maxConcurrent : nat.    (* const maxConcurrent = 5 *)

(** The remote end: the response to the request for a page, [None] when
    [fetchData] returns an error (request construction, transport or
    decoding). *)
Variable fetchData : nat -> option Response.

(** [io_fail k]: the call to the operating system that would become event
    number [k] of the trace fails (Part I). *)
Variable io_fail : nat -> bool.

(** [time.Now().Format("2006-01-02")]. *)
Variable fileDate : string.

Definition csvFilename : string :=
  match rev with
  | Current => ("oreilly-book-list-" ++ fileDate ++ ".csv")%string
  | Earlier => "oreilly-book-list.csv"
  end.

Definition markdownFilename : string :=
  ("oreilly-book-list-" ++ fileDate ++ ".md")%string.

(** What main.go does to the file system when it has no product to
    write and no call fails: the header record in the CSV file, the header
    and the separator line in the Markdown file. *)
Definition header_only : World :=
  [ EvCreate csvFilename true;
    EvCsvWrite csvFilename csv_header true;
    EvCsvFlush csvFilename;
    EvClose csvFilename;
    EvCreate markdownFilename true;
    EvWriteString markdownFilename (md_line md_header) true;
    EvWriteString markdownFilename (md_line md_separator) true;
    EvClose markdownFilename ].

(** log.Fatalf: the message is logged and the process exits. *)
Definition fatal (err : error) (s : State) : State :=
  set_status (Some (ExitFatal err)) (add_log (LogFatal err) s).

(** [main].  It has no deferred call, so a panic of its own ends the
    process at once.  A writer is one step: it shares nothing with the
    other goroutines. *)
Definition step_main (s : State) : option State :=
  match m_pc s with
  | MAddD => Some (set_m_pc MGoD (set_wg (S (wg s)) s))
  | MGoD =>
      Some (set_m_pc (match rev with Current => MAddC | Earlier => MGoC end)
                     (set_d_pc (DLoop 0) s))
  | MAddC => Some (set_m_pc MGoC (set_wg (S (wg s)) s))
  | MGoC =>
      Some (set_m_pc MWait
              (set_c_pc (match rev with Current => CRange | Earlier => CCreate end) s))
  | MWait =>
      match wg s with
      | 0 => Some (set_m_pc (match rev with Current => MWriteCSV | Earlier => MClose end) s)
      | S _ => None
      end
  | MClose =>
      (* closing a closed channel panics *)
      if chan_closed s then Some (set_status (Some ExitPanic) s)
      else Some (set_m_pc MRecvDone (set_chan_closed true s))
  | MRecvDone =>
      match c_pc s with
      | CSendDone => Some (set_m_pc MPrintln (set_c_pc CExit s))
      | _ => None
      end
  | MWriteCSV =>
      match writeCSV io_fail csvFilename (allProducts s) (world s) with
      | (Return None, w) => Some (set_m_pc MWriteMD (set_world w s))
      | (Return (Some err), w) => Some (fatal err (set_world w s))
      | (Panic _, w) => Some (set_status (Some ExitPanic) (set_world w s))
      end
  | MWriteMD =>
      match writeMarkdown io_fail markdownFilename (allProducts s) (world s) with
      | (Return None, w) => Some (set_m_pc MPrintln (set_world w s))
      | (Return (Some err), w) => Some (fatal err (set_world w s))
      | (Panic _, w) => Some (set_status (Some ExitPanic) (set_world w s))
      end
  | MPrintln => Some (set_status (Some ExitOK) (add_log LogPrintln s))
  end.

(** [fetchProducts], and in [Current] the rest of the goroutine around it. *)
Definition step_dispatcher (s : State) : option State :=
  match d_pc s with
  | DIdle => None
  | DLoop page =>
      if (page <? pageMax)%nat then
        if (sem s <? maxConcurrent)%nat
        then Some (set_d_pc (DAdd page) (set_sem (S (sem s)) s))
        else None
      else Some (set_d_pc (match rev with Current => DClose | Earlier => DDone false end) s)
  | DAdd page => Some (set_d_pc (DGo page) (set_wg (S (wg s)) s))
  | DGo page =>
      Some (set_d_pc (DLoop (S page)) (set_tasks (tasks s ++ [mkTask page TStart]) s))
  | DClose =>
      (* closing a closed channel panics; the deferred wg.Done() still runs *)
      if chan_closed s then Some (set_d_pc (DDone true) s)
      else Some (set_d_pc (DDone false) (set_chan_closed true s))
  | DDone panicking =>
      match wg s with
      | 0 => Some (set_d_pc DDie s)    (* negative WaitGroup counter: panic *)
      | S n => Some (set_d_pc (if panicking then DDie else DExit) (set_wg n s))
      end
  | DDie => Some (set_status (Some ExitPanic) s)
  | DExit => None
  end.

(** The deferred [writer.Flush()] and [file.Close()] of the earlier
    [writeCSV], which run when it returns or panics. *)
Definition csv_deferred (w : World) : World :=
  w ++ [EvCsvFlush csvFilename; EvClose csvFilename].

(** [Current]: [for products := range productsChan { allProducts =
    append(allProducts, products...) }].  [Earlier]: [writeCSV] reading
    the channel, then [done <- struct{}{}]. *)
Definition step_consumer (s : State) : option State :=
  match c_pc s with
  | CIdle => None
  | CCreate =>
      match os_Create io_fail csvFilename (world s) with
      | (Some err, w) => Some (fatal err (set_world w s))
      | (None, w) => Some (set_c_pc CHeader (set_world w s))
      end
  | CHeader =>
      match csv_Write io_fail csvFilename csv_header (world s) with
      | (Some err, w) => Some (fatal err (set_world (csv_deferred w) s))
      | (None, w) => Some (set_c_pc CRange (set_world w s))
      end
  | CRange =>
      match chan_buf s with
      | products :: rest =>
          Some (match rev with
                | Current => set_allProducts (allProducts s ++ products) (set_chan_buf rest s)
                | Earlier => set_c_pc (CRows products) (set_chan_buf rest s)
                end)
      | [] =>
          if chan_closed s then
            Some (match rev with
                  | Current => set_c_pc CDone s
                  | Earlier => set_c_pc CSendDone (set_world (csv_deferred (world s)) s)
                  end)
          else None
      end
  | CRows [] => Some (set_c_pc CRange s)
  | CRows (product :: rest) =>
      match formatCategories (Categories product) with
      | Panic _ => Some (set_c_pc CDie (set_world (csv_deferred (world s)) s))
      | Return categories =>
          match csv_Write io_fail csvFilename (csv_row product categories) (world s) with
          | (Some err, w) => Some (fatal err (set_world (csv_deferred w) s))
          | (None, w) => Some (set_c_pc (CRows rest) (set_world w s))
          end
      end
  | CDone =>
      match wg s with
      | 0 => Some (set_c_pc CDie s)    (* negative WaitGroup counter: panic *)
      | S n => Some (set_c_pc CExit (set_wg n s))
      end
  | CSendDone => None
  | CDie => Some (set_status (Some ExitPanic) s)
  | CExit => None
  end.

(** The goroutine started for one page.  [defer wg.Done()] is registered
    before [defer func() { <-sem }()], so the token is released first.  The
    two [log.Printf] are taken with the return of [fetchData]: the log is
    written by nobody else in between that matters to the program. *)
Definition step_task (g : nat) (s : State) : option State :=
  match tasks s !! g with
  | None => None
  | Some t =>
      match t_pc t with
      | TStart => Some (set_task g t TFetching (add_fetched (t_page t) s))
      | TFetching =>
          match fetchData (t_page t) with
          | None =>
              Some (set_task g t (TRelease false) (add_log (LogFetchError (t_page t)) s))
          | Some response =>
              let products := Products (Data response) in
              Some (set_task g t (TSend products)
                      (add_log (LogPage (t_page t) (length products)) s))
          end
      | TSend products =>
          (* send on a closed channel: panic, the deferred calls run *)
          if chan_closed s then Some (set_task g t (TRelease true) s)
          else if (length (chan_buf s) <? maxConcurrent)%nat
          then Some (set_task g t (TRelease false)
                       (add_sent (t_page t) (set_chan_buf (chan_buf s ++ [products]) s)))
          else None
      | TRelease panicking =>
          match sem s with
          | 0 => None
          | S n => Some (set_task g t (TDone panicking) (set_sem n s))
          end
      | TDone panicking =>
          match wg s with
          | 0 => Some (set_task g t TDie s)    (* negative counter: panic *)
          | S n => Some (set_task g t (if panicking then TDie else TExit) (set_wg n s))
          end
      | TDie => Some (set_status (Some ExitPanic) s)
      | TExit => None
      end
  end.

(** A dead process takes no step. *)
Definition step (a : Actor) (s : State) : option State :=
  match status s with
  | Some _ => None
  | None =>
      match a with
      | AMain => step_main s
      | ADispatcher => step_dispatcher s
      | AConsumer => step_consumer s
      | ATask g => step_task g s
      end
  end.

Definition init : State :=
  mkState MAddD DIdle CIdle [] 0 0 [] false [] [] [] None [] [].

(** A schedule is the order in which the goroutines take their steps. *)
Fixpoint run (sched : list Actor) (s : State) : option State :=
  match sched with
  | [] => Some s
  | a :: rest =>
      match step a s with
      | Some s' => run rest s'
      | None => None
      end
  end.

Definition reachable (s : State) : Prop :=
  exists sched, run sched init = Some s.

(** ** What the invariants count *)

(** The task holds a token of [sem]: from its launch to its [<-sem]. *)
Definition holds_token (pc : TaskPc) : bool :=
  match pc with
  | TStart | TFetching | TSend _ | TRelease _ => true
  | _ => false
  end.

(** The task is inside [fetchData]. *)
Definition in_fetch (pc : TaskPc) : bool :=
  match pc with TFetching => true | _ => false end.

(** The task's [wg.Add(1)] is not yet matched by its [wg.Done()]. *)
Definition counted (pc : TaskPc) : bool :=
  match pc with
  | TDie | TExit => false
  | _ => true
  end.

Definition panicking (pc : TaskPc) : bool :=
  match pc with
  | TRelease true | TDone true | TDie => true
  | _ => false
  end.

Definition exited (pc : TaskPc) : bool :=
  match pc with TExit => true | _ => false end.

Definition called_fetch (pc : TaskPc) : bool :=
  match pc with TStart => false | _ => true end.

(** The task's batch has entered [productsChan]. *)
Definition has_sent (t : Task) : bool :=
  match t_pc t with
  | TRelease false | TDone false | TExit =>
      match fetchData (t_page t) with Some _ => true | None => false end
  | _ => false
  end.

Fixpoint count (f : TaskPc -> bool) (ts : list Task) : nat :=
  match ts with
  | [] => 0
  | t :: ts' => (if f (t_pc t) then 1 else 0) + count f ts'
  end.

Fixpoint pages_where (f : Task -> bool) (ts : list Task) : list nat :=
  match ts with
  | [] => []
  | t :: ts' => if f t then t_page t :: pages_where f ts' else pages_where f ts'
  end.

(** The batch a page contributes: its products when the fetch succeeds,
    nothing when it fails. *)
Definition batch_of (page : nat) : list Product :=
  match fetchData page with
  | Some response => Products (Data response)
  | None => []
  end.

Definition succeeds (page : nat) : bool :=
  match fetchData page with Some _ => true | None => false end.

(** Number of tasks the dispatcher has launched so far. *)
Definition launched (d : DispPc) : nat :=
  match d with
  | DIdle => 0
  | DLoop page | DAdd page | DGo page => page
  | _ => pageMax
  end.

(** The dispatcher holds a token it has not yet handed to a task. *)
Definition d_token (d : DispPc) : nat :=
  match d with DAdd _ | DGo _ => 1 | _ => 0 end.

(** The dispatcher has done [wg.Add(1)] for a task not yet launched. *)
Definition d_pending (d : DispPc) : nat :=
  match d with DGo _ => 1 | _ => 0 end.

Definition d_running (d : DispPc) : bool :=
  match d with
  | DLoop _ | DAdd _ | DGo _ | DClose | DDone _ => true
  | _ => false
  end.

(** The dispatcher is inside the loop of [fetchProducts]. *)
Definition d_in_loop (d : DispPc) : bool :=
  match d with DLoop _ | DAdd _ | DGo _ => true | _ => false end.

(** Share of the fetching goroutine in the WaitGroup counter. *)
Definition d_wg (m : MainPc) (d : DispPc) : nat :=
  match m with
  | MGoD => 1
  | _ => if d_running d then 1 else 0
  end.

(** Share of the draining goroutine in the WaitGroup counter. *)
Definition c_wg (m : MainPc) (c : ConsPc) : nat :=
  match rev with
  | Earlier => 0
  | Current =>
      match m with
      | MGoC => 1
      | _ => match c with CRange | CDone => 1 | _ => 0 end
      end
  end.

Definition m_before_d (m : MainPc) : bool :=
  match m with MAddD | MGoD => true | _ => false end.

Definition m_before_c (m : MainPc) : bool :=
  match m with MAddD | MGoD | MAddC | MGoC => true | _ => false end.

Definition m_past_wait (m : MainPc) : bool :=
  match m with
  | MClose | MRecvDone | MWriteCSV | MWriteMD | MPrintln => true
  | _ => false
  end.

Definition is_DIdle (d : DispPc) : bool := match d with DIdle => true | _ => false end.
Definition is_CIdle (c : ConsPc) : bool := match c with CIdle => true | _ => false end.

(** The program points that belong to the revision, and no panic outside
    the tasks. *)
Definition rev_pcs (m : MainPc) (d : DispPc) (c : ConsPc) : bool :=
  match d with DDone true | DDie => false | _ => true end &&
  match rev with
  | Current =>
      match m with MClose | MRecvDone => false | _ => true end &&
      match c with CCreate | CHeader | CRows _ | CSendDone | CDie => false | _ => true end
  | Earlier =>
      match m with MAddC | MWriteCSV | MWriteMD => false | _ => true end &&
      match c with CDone => false | _ => true end &&
      match d with DClose => false | _ => true end
  end.

(** Who has closed [productsChan]. *)
Definition closed_by (m : MainPc) (d : DispPc) : bool :=
  match rev with
  | Current => match d with DDone _ | DDie | DExit => true | _ => false end
  | Earlier => match m with MRecvDone | MPrintln => true | _ => false end
  end.

Definition c_finished (c : ConsPc) : bool :=
  match c with CDone | CSendDone | CExit => true | _ => false end.

(** *** The control invariant: tokens, WaitGroup, program points *)
Record control_inv (s : State) : Prop := mkControlInv {
  ci_sem : sem s = count holds_token (tasks s) + d_token (d_pc s);
  ci_sem_le : sem s <= maxConcurrent;
  ci_pages : map t_page (tasks s) = seq 0 (launched (d_pc s));
  ci_bound : match d_pc s with
             | DLoop page => page <= pageMax
             | DAdd page | DGo page => page < pageMax
             | _ => True
             end;
  ci_wg : wg s = d_wg (m_pc s) (d_pc s) + c_wg (m_pc s) (c_pc s)
                 + count counted (tasks s) + d_pending (d_pc s);
  ci_d_idle : is_DIdle (d_pc s) = m_before_d (m_pc s);
  ci_c_idle : is_CIdle (c_pc s) = m_before_c (m_pc s);
  ci_rev : rev_pcs (m_pc s) (d_pc s) (c_pc s) = true;
  ci_past : m_past_wait (m_pc s) = true -> wg s = 0;
  ci_closed : chan_closed s = closed_by (m_pc s) (d_pc s);
  ci_earlier : rev = Earlier -> count panicking (tasks s) = 0;
  ci_drained : c_finished (c_pc s) = true -> chan_closed s = true /\ chan_buf s = [];
  ci_panicking : 1 <= count panicking (tasks s) -> chan_closed s = true;
  ci_ceiling : 1 <= length (tasks s) -> 1 <= maxConcurrent
}.

(** *** The data invariant: what the tasks fetched, sent and logged *)

(** The program point of a task agrees with the outcome of its fetch: it
    is at the send only with the products of its own page, and it panics
    only after a fetch that succeeded. *)
Definition task_ok (t : Task) : Prop :=
  match t_pc t with
  | TSend products =>
      exists response,
        fetchData (t_page t) = Some response /\ products = Products (Data response)
  | TRelease true | TDone true | TDie => succeeds (t_page t) = true
  | _ => True
  end.

(** Once the fetch of a task is over, its line is in the log. *)
Definition task_logged (lg : list LogEntry) (t : Task) : Prop :=
  match t_pc t with
  | TStart | TFetching => True
  | _ =>
      match fetchData (t_page t) with
      | None => In (LogFetchError (t_page t)) lg
      | Some response =>
          In (LogPage (t_page t) (length (Products (Data response)))) lg
      end
  end.

Record data_inv (s : State) : Prop := mkDataInv {
  di_tasks : Forall task_ok (tasks s);
  di_logged : Forall (task_logged (log s)) (tasks s);
  di_sent : Permutation (sent s) (pages_where has_sent (tasks s));
  di_fetched :
    Permutation (fetched s) (pages_where (fun t => called_fetch (t_pc t)) (tasks s));
  di_agg :
    rev = Current ->
    allProducts s ++ concat (chan_buf s) = concat (map batch_of (sent s))
}.

(** *** The output invariant of main.go: what main has written so far *)
Definition output_world (s : State) : Prop :=
  match m_pc s, status s with
  | MWriteCSV, Some (ExitFatal err) =>
      writeCSV io_fail csvFilename (allProducts s) [] = (Return (Some err), world s)
  | MWriteMD, Some (ExitFatal err) =>
      exists w1,
        writeCSV io_fail csvFilename (allProducts s) [] = (Return None, w1) /\
        writeMarkdown io_fail markdownFilename (allProducts s) w1
          = (Return (Some err), world s)
  | MWriteMD, _ =>
      writeCSV io_fail csvFilename (allProducts s) [] = (Return None, world s)
  | MPrintln, Some (ExitFatal _) => False
  | MPrintln, _ =>
      exists w1,
        writeCSV io_fail csvFilename (allProducts s) [] = (Return None, w1) /\
        writeMarkdown io_fail markdownFilename (allProducts s) w1
          = (Return None, world s)
  | _, Some (ExitFatal _) => False
  | _, Some ExitOK => False
  | _, _ => world s = []
  end.

Record output_inv (s : State) : Prop := mkOutputInv {
  oi_world : rev = Current -> output_world s;
  oi_ok : status s = Some ExitOK -> m_pc s = MPrintln /\ In LogPrintln (log s);
  oi_fatal : forall err, status s = Some (ExitFatal err) -> In (LogFatal err) (log s);
  oi_println : In LogPrintln (log s) -> status s = Some ExitOK
}.

(** *** The CSV file of the earlier revision

    There the consumer is [writeCSV] itself.  [c_pending] are the products
    it has received and not yet written, followed by those still in the
    channel. *)
Definition c_pending (s : State) : list Product :=
  match c_pc s with CRows rest => rest | _ => [] end ++ concat (chan_buf s).

Definition c_header_written (c : ConsPc) : bool :=
  match c with CIdle | CCreate | CHeader => false | _ => true end.

(** The file holds nothing before the header is written, and afterwards the
    header followed by one record per product written; the products written
    and the pending ones are together what entered the channel. *)
Definition earlier_csv_inv (s : State) : Prop :=
  rev = Earlier ->
  exists written,
    csv_records csvFilename (world s)
    = (if c_header_written (c_pc s) then csv_header :: map csv_record written else []) /\
    (c_header_written (c_pc s) = false -> written = []) /\
    written ++ c_pending s = concat (map batch_of (sent s)).

(** *** In main.go only a task can take the process down *)
Definition panic_inv (s : State) : Prop :=
  rev = Current -> status s = Some ExitPanic -> 1 <= count panicking (tasks s).

(** *** A bound on the steps left

    Every goroutine runs straight-line code or a loop over a finite slice,
    so each program point has a number of steps left; a task before its
    send also carries the steps the consumer will spend on its batch. *)
Definition batch_cost (products : list Product) : nat := 2 + length products.

Definition task_weight (t : Task) : nat :=
  match t_pc t with
  | TStart => 6 + batch_cost (batch_of (t_page t))
  | TFetching => 5 + batch_cost (batch_of (t_page t))
  | TSend products => 4 + batch_cost products
  | TRelease _ => 3
  | TDone _ => 2
  | TDie => 1
  | TExit => 0
  end.

Fixpoint tasks_weight (ts : list Task) : nat :=
  match ts with
  | [] => 0
  | t :: ts' => task_weight t + tasks_weight ts'
  end.

Fixpoint buf_weight (buf : list (list Product)) : nat :=
  match buf with
  | [] => 0
  | products :: buf' => batch_cost products + buf_weight buf'
  end.

(** The loop of [fetchProducts] from [page] on, [n] pages being left. *)
Fixpoint loop_weight (page n : nat) : nat :=
  match n with
  | 0 => 4
  | S n' => 3 + (6 + batch_cost (batch_of page)) + loop_weight (S page) n'
  end.

Definition d_weight (d : DispPc) : nat :=
  match d with
  | DIdle => 1 + loop_weight 0 pageMax
  | DLoop page => loop_weight page (pageMax - page)
  | DAdd page =>
      2 + (6 + batch_cost (batch_of page)) + loop_weight (S page) (pageMax - S page)
  | DGo page =>
      1 + (6 + batch_cost (batch_of page)) + loop_weight (S page) (pageMax - S page)
  | DClose => 3
  | DDone _ => 2
  | DDie => 1
  | DExit => 0
  end.

Definition c_weight (c : ConsPc) : nat :=
  match c with
  | CIdle => 6
  | CCreate => 5
  | CHeader => 4
  | CRange => 3
  | CRows rest => 4 + length rest
  | CDone | CSendDone => 2
  | CDie => 1
  | CExit => 0
  end.

Definition m_weight (m : MainPc) : nat :=
  match m with
  | MAddD => 10
  | MGoD => 9
  | MAddC => 8
  | MGoC => 7
  | MWait => 6
  | MClose => 5
  | MRecvDone => 4
  | MWriteCSV => 3
  | MWriteMD => 2
  | MPrintln => 1
  end.

Definition measure (s : State) : nat :=
  match status s with
  | Some _ => 0
  | None =>
      1 + m_weight (m_pc s) + d_weight (d_pc s) + c_weight (c_pc s)
        + tasks_weight (tasks s) + buf_weight (chan_buf s)
  end.

(** *** The earlier revision: no panic, and the rendezvous on [done]

    There nothing panics, the consumer has returned exactly when [main] has
    received from [done], and the only errors that end the process are
    those of [os.Create] and of a [Write] on the CSV file. *)
Definition earlier_safe (s : State) : Prop :=
  rev = Earlier ->
  c_pc s <> CDie /\
  status s <> Some ExitPanic /\
  (c_pc s = CExit <-> m_pc s = MPrintln) /\
  (forall err, status s = Some (ExitFatal err) ->
     err = ErrCreate csvFilename \/ err = ErrCsvWrite csvFilename).

(** *** The log: one line for every page whose fetch is over *)

(** The page a log line is about. *)
Definition log_page (e : LogEntry) : list nat :=
  match e with
  | LogFetchError page | LogPage page _ => [page]
  | _ => []
  end.

Definition logged_pages (lg : list LogEntry) : list nat := flat_map log_page lg.

(** [fetchData] has returned to the task. *)
Definition fetch_over (t : Task) : bool :=
  match t_pc t with TStart | TFetching => false | _ => true end.

(** The line says what the fetch of its page gave. *)
Definition log_true (e : LogEntry) : Prop :=
  match e with
  | LogFetchError page => fetchData page = None
  | LogPage page n =>
      exists response,
        fetchData page = Some response /\ n = length (Products (Data response))
  | _ => True
  end.

Definition log_inv (s : State) : Prop :=
  Permutation (logged_pages (log s)) (pages_where fetch_over (tasks s)) /\
  Forall log_true (log s).

(** *** All invariants together *)
Record inv (s : State) : Prop := mkInv {
  inv_control : control_inv s;
  inv_data : data_inv s;
  inv_output : output_inv s;
  inv_panic : panic_inv s;
  inv_earlier_csv : earlier_csv_inv s
}.

(* =================================================================== *)
(** * Part III: invariants                                              *)
(* =================================================================== *)

(** ** Strings *)

Lemma string_app_nil_r (a : string) : (a ++ "")%string = a.
Proof. induction a as [|c a IH]; simpl; [reflexivity | now rewrite IH]. Qed.

Lemma string_app_assoc (a b c : string) :
  ((a ++ b) ++ c)%string = (a ++ (b ++ c))%string.
Proof. induction a as [|x a IH]; simpl; [reflexivity | now rewrite IH]. Qed.

Lemma string_length_app (a b : string) :
  String.length (a ++ b) = String.length a + String.length b.
Proof. induction a as [|x a IH]; simpl; [reflexivity | now rewrite IH]. Qed.

Lemma substring_0_length_app (a b : string) :
  substring 0 (String.length a) (a ++ b) = a.
Proof.
  induction a as [|x a IH]; simpl.
  - destruct b; reflexivity.
  - now rewrite IH.
Qed.

(** ** formatCategories *)

Lemma formatCategories_loop_spec categories : forall formatted,
  formatCategories_loop categories formatted
  = Return (formatted ++ labels_sep (first_labels categories))%string.
Proof.
  induction categories as [|category rest IH]; intros formatted; simpl.
  - now rewrite string_app_nil_r.
  - destruct category as [|c0 category]; simpl.
    + apply IH.
    + rewrite IH. now rewrite !string_app_assoc.
Qed.

Lemma labels_sep_concat labels :
  labels <> [] ->
  labels_sep labels = (String.concat " > " labels ++ " > ")%string.
Proof.
  induction labels as [|c0 [|c1 rest] IH]; intros Hne.
  - congruence.
  - reflexivity.
  - change (labels_sep (c0 :: c1 :: rest))
      with (c0 ++ " > " ++ labels_sep (c1 :: rest))%string.
    rewrite IH by discriminate.
    change (String.concat " > " (c0 :: c1 :: rest))
      with (c0 ++ " > " ++ String.concat " > " (c1 :: rest))%string.
    now rewrite !string_app_assoc.
Qed.

Lemma slice_to_trim (a : string) :
  slice_to (a ++ " > ") (Z.of_nat (String.length (a ++ " > ")) - 3) = Return a.
Proof.
  unfold slice_to. rewrite string_length_app. simpl String.length.
  replace (Z.of_nat (String.length a + 3) - 3)%Z with (Z.of_nat (String.length a)) by lia.
  destruct (Z.ltb_spec (Z.of_nat (String.length a)) 0); [lia|].
  destruct (Z.ltb_spec (Z.of_nat (String.length a + 3)) (Z.of_nat (String.length a))); [lia|].
  simpl. rewrite Nat2Z.id. now rewrite substring_0_length_app.
Qed.

(** [formatCategories] returns, and returns the flattened string. *)
Lemma formatCategories_spec categories :
  formatCategories categories = Return (flattened categories).
Proof.
  unfold formatCategories, flattened. rewrite formatCategories_loop_spec. simpl.
  destruct (first_labels categories) as [|c0 rest] eqn:Hl.
  - reflexivity.
  - rewrite labels_sep_concat by discriminate.
    set (a := String.concat " > " (c0 :: rest)).
    destruct (Nat.ltb_spec 0 (String.length (a ++ " > "))) as [_|Hlen].
    + apply slice_to_trim.
    + rewrite string_length_app in Hlen. simpl in Hlen. lia.
Qed.

(** ** Counting over the task list *)

Lemma count_app f l l' : count f (l ++ l') = count f l + count f l'.
Proof. induction l as [|t l IH]; simpl; [reflexivity | rewrite IH; lia]. Qed.

Lemma count_insert f (l : list Task) g t pc :
  l !! g = Some t ->
  count f (<[g := mkTask (t_page t) pc]> l) + (if f (t_pc t) then 1 else 0)
  = count f l + (if f pc then 1 else 0).
Proof.
  revert g. induction l as [|u l IH]; intros [|g] Hg; simpl in *; try discriminate.
  - injection Hg as ->. lia.
  - specialize (IH g Hg). lia.
Qed.

Lemma count_lookup f (l : list Task) g t :
  l !! g = Some t -> f (t_pc t) = true -> 1 <= count f l.
Proof.
  revert g. induction l as [|u l IH]; intros [|g] Hg Hf; simpl in *; try discriminate.
  - injection Hg as ->. rewrite Hf. lia.
  - specialize (IH g Hg Hf). lia.
Qed.

Lemma count_zero_lookup f (l : list Task) g t :
  count f l = 0 -> l !! g = Some t -> f (t_pc t) = false.
Proof.
  intros H0 Hg. destruct (f (t_pc t)) eqn:Hf; [|reflexivity].
  pose proof (count_lookup f l g t Hg Hf). lia.
Qed.

Lemma count_le_length f l : count f l <= length l.
Proof. induction l as [|t l IH]; simpl; [lia | destruct (f (t_pc t)); lia]. Qed.

Lemma count_mono (f h : TaskPc -> bool) l :
  (forall pc, f pc = true -> h pc = true) -> count f l <= count h l.
Proof.
  intros Hfh. induction l as [|t l IH]; simpl; [lia|].
  destruct (f (t_pc t)) eqn:Hf; [rewrite (Hfh _ Hf); lia | destruct (h (t_pc t)); lia].
Qed.

Lemma pages_insert (l : list Task) g t pc :
  l !! g = Some t -> map t_page (<[g := mkTask (t_page t) pc]> l) = map t_page l.
Proof.
  revert g. induction l as [|u l IH]; intros [|g] Hg; simpl in *; try discriminate.
  - injection Hg as ->. reflexivity.
  - f_equal. apply IH, Hg.
Qed.

(** ** The control invariant holds initially and is kept by every step *)

Lemma control_inv_init : control_inv init.
Proof.
  constructor; simpl; unfold c_wg, rev_pcs, closed_by; destruct rev;
    try reflexivity; try lia; try discriminate.
Qed.

(** Case analysis on the program text of a step. *)
Ltac break_step H :=
  try discriminate H;
  repeat match type of H with
  | context [match ?x with _ => _ end] => destruct x eqn:?; try discriminate H
  end;
  try (injection H as <-).

Ltac bool_facts :=
  repeat match goal with
  | H : (_ <? _)%nat = true |- _ => apply Nat.ltb_lt in H
  | H : (_ <? _)%nat = false |- _ => apply Nat.ltb_ge in H
  end.

Ltac ci_facts I :=
  destruct I as [Isem Isemle Ipages Ibound Iwg Idi Ici Irev Ipast Iclosed Iearly Idrain
                 Ipanic Iceil].

Ltac proj_simpl :=
  cbn [m_pc d_pc c_pc tasks sem wg chan_buf chan_closed allProducts log world
       status fetched sent
       set_m_pc set_d_pc set_c_pc set_tasks set_sem set_wg set_chan_buf
       set_chan_closed set_allProducts add_log set_world set_status
       add_fetched add_sent set_task fatal] in *.

Ltac pc_rw :=
  repeat match goal with
  | H : m_pc _ = _ |- _ => progress (rewrite H in * )
  | H : d_pc _ = _ |- _ => progress (rewrite H in * )
  | H : c_pc _ = _ |- _ => progress (rewrite H in * )
  | H : rev = _ |- _ => progress (rewrite H in * )
  end.

Ltac fn_simpl :=
  cbn [d_running d_token d_pending launched m_before_d m_before_c m_past_wait
       is_DIdle is_CIdle c_finished d_wg c_wg rev_pcs closed_by
       holds_token counted panicking in_fetch exited called_fetch
       andb orb negb Nat.add] in *.

Ltac ci_norm :=
  proj_simpl; unfold c_wg, rev_pcs, closed_by in *; pc_rw; fn_simpl.

Ltac ci_close :=
  try first [ reflexivity | assumption | lia | discriminate | congruence
            | (intuition (first [ discriminate | lia | congruence ])) ].

(** Split the invariant of the new state; fields the step does not touch
    are closed at once, the others after case analysis on the program
    points they mention. *)
Ltac ci_split :=
  constructor; proj_simpl; try assumption.

Ltac ci_cases_goal s :=
  ci_norm; try discriminate;
  try (match goal with |- context [m_pc s] => idtac end;
       destruct (m_pc s) eqn:?; ci_norm; try discriminate);
  try (match goal with |- context [d_pc s] => idtac end;
       destruct (d_pc s) as [| | | | |[]| |] eqn:?; ci_norm; try discriminate);
  try (match goal with |- context [c_pc s] => idtac end;
       destruct (c_pc s) eqn:?; ci_norm; try discriminate).

Ltac ci_cases_all s :=
  ci_norm; try discriminate;
  try (destruct (m_pc s) eqn:?; ci_norm; try discriminate);
  try (destruct (d_pc s) as [| | | | |[]| |] eqn:?; ci_norm; try discriminate);
  try (destruct (c_pc s) eqn:?; ci_norm; try discriminate).

Ltac ci_solve s tac :=
  first [ solve [ci_cases_goal s; tac] | solve [ci_cases_all s; tac] ].

Lemma control_inv_main s s' :
  control_inv s -> step_main s = Some s' -> control_inv s'.
Proof.
  intros I Hs. unfold step_main in Hs. ci_facts I.
  destruct rev eqn:Hrev; destruct (m_pc s) eqn:Hm; break_step Hs; ci_split.
  all: ci_solve s ci_close.
Qed.

Lemma control_inv_dispatcher s s' :
  control_inv s -> step_dispatcher s = Some s' -> control_inv s'.
Proof.
  intros I Hs. unfold step_dispatcher in Hs. ci_facts I.
  destruct rev eqn:Hrev; destruct (d_pc s) as [| | | | |[]| |] eqn:Hd;
    break_step Hs; bool_facts; ci_split.
  all: ci_solve s ltac:(
    try match goal with
        | H1 : ?p <= pageMax, H2 : pageMax <= ?p |- _ =>
            assert (p = pageMax) by lia; subst p
        end;
    rewrite ?count_app, ?map_app, ?seq_S, ?length_app; simpl;
    rewrite ?Nat.add_0_r; ci_close).
Qed.

Lemma control_inv_consumer s s' :
  control_inv s -> step_consumer s = Some s' -> control_inv s'.
Proof.
  intros I Hs. unfold step_consumer in Hs. ci_facts I.
  destruct rev eqn:Hrev; destruct (c_pc s) eqn:Hc; break_step Hs; ci_split.
  all: ci_solve s ci_close.
Qed.

(** What a step of task [g] does to the three counts. *)
Ltac task_counts s g t Hg Hpc :=
  repeat match goal with
  | |- context [count ?f (<[g := mkTask (t_page t) ?pc]> (tasks s))] =>
      let H := fresh "Hcnt" in
      pose proof (count_insert f (tasks s) g t pc Hg) as H;
      rewrite Hpc in H; cbn [holds_token counted panicking] in H;
      let n := fresh "n" in
      let E := fresh "E" in
      remember (count f (<[g := mkTask (t_page t) pc]> (tasks s))) as n eqn:E;
      clear E
  end.

Lemma control_inv_task g s s' :
  control_inv s -> step_task g s = Some s' -> control_inv s'.
Proof.
  intros I Hs. unfold step_task in Hs. ci_facts I.
  destruct (tasks s !! g) as [t|] eqn:Hg; [|discriminate].
  pose proof (count_lookup counted _ _ _ Hg) as Hcounted.
  pose proof (count_lookup holds_token _ _ _ Hg) as Hholds.
  destruct (t_pc t) as [| | |[]|[]| |] eqn:Hpc; break_step Hs; bool_facts;
    cbn [holds_token counted] in Hcounted, Hholds;
    try specialize (Hcounted eq_refl); try clear Hholds;
    ci_split; rewrite ?pages_insert by exact Hg; rewrite ?length_insert;
    try assumption.
  all: task_counts s g t Hg Hpc.
  all: try solve [ci_norm; ci_close].
  all: try solve [intros; apply Ipanic; lia].
  intros Hearlier. exfalso.
  unfold closed_by in Iclosed. rewrite Hearlier in Iclosed.
  destruct (m_pc s); cbn [m_past_wait] in Ipast; try discriminate Iclosed;
    specialize (Ipast eq_refl); lia.
Qed.

Lemma control_inv_step a s s' :
  control_inv s -> step a s = Some s' -> control_inv s'.
Proof.
  unfold step. destruct (status s); [discriminate|].
  destruct a; eauto using control_inv_main, control_inv_dispatcher,
    control_inv_consumer, control_inv_task.
Qed.


(** ** The data invariant *)

Lemma pages_where_app f l l' :
  pages_where f (l ++ l') = pages_where f l ++ pages_where f l'.
Proof.
  induction l as [|t l IH]; simpl; [reflexivity|].
  destruct (f t); simpl; now rewrite IH.
Qed.

Lemma pages_where_insert_same f (l : list Task) g t pc :
  l !! g = Some t ->
  f (mkTask (t_page t) pc) = f t ->
  pages_where f (<[g := mkTask (t_page t) pc]> l) = pages_where f l.
Proof.
  revert g. induction l as [|u l IH]; intros [|g] Hg Hf; simpl in *; try discriminate.
  - injection Hg as ->. rewrite Hf. reflexivity.
  - rewrite (IH g Hg Hf). reflexivity.
Qed.

Lemma pages_where_insert_gain f (l : list Task) g t pc :
  l !! g = Some t ->
  f t = false ->
  f (mkTask (t_page t) pc) = true ->
  Permutation (pages_where f (<[g := mkTask (t_page t) pc]> l))
              (pages_where f l ++ [t_page t]).
Proof.
  revert g. induction l as [|u l IH]; intros [|g] Hg Hf Hf'; simpl in *; try discriminate.
  - injection Hg as ->. rewrite Hf, Hf'. simpl.
    change (t_page t :: pages_where f l) with ([t_page t] ++ pages_where f l).
    apply Permutation_app_comm.
  - destruct (f u); simpl; [apply perm_skip|]; apply IH; assumption.
Qed.

Lemma pages_where_incl f l : incl (pages_where f l) (map t_page l).
Proof.
  induction l as [|t l IH]; simpl; [apply incl_refl|].
  destruct (f t).
  - apply incl_cons; [left; reflexivity | apply incl_tl, IH].
  - apply incl_tl, IH.
Qed.

Lemma pages_where_all f l :
  (forall t, In t l -> f t = true) -> pages_where f l = map t_page l.
Proof.
  induction l as [|t l IH]; simpl; intros Hall; [reflexivity|].
  rewrite (Hall t) by (left; reflexivity). f_equal. apply IH.
  intros u Hu. apply Hall. right. exact Hu.
Qed.

Lemma task_logged_mono lg e t : task_logged lg t -> task_logged (lg ++ [e]) t.
Proof.
  unfold task_logged. destruct (t_pc t); try exact id;
    destruct (fetchData (t_page t)); intros H; apply in_or_app; left; exact H.
Qed.

Lemma Forall_task_logged_mono lg e ts :
  Forall (task_logged lg) ts -> Forall (task_logged (lg ++ [e])) ts.
Proof.
  intros H. eapply Forall_impl; [exact H|]. intros t. apply task_logged_mono.
Qed.

Lemma data_inv_init : data_inv init.
Proof. constructor; simpl; intros; constructor. Qed.

Ltac di_facts D :=
  destruct D as [Dtasks Dlogged Dsent Dfetched Dagg].

Lemma data_inv_main s s' :
  data_inv s -> step_main s = Some s' -> data_inv s'.
Proof.
  intros D Hs. unfold step_main in Hs. di_facts D.
  destruct (m_pc s); break_step Hs; constructor; proj_simpl;
    auto using Forall_task_logged_mono.
  all: intros Hr; first [ apply Dagg; reflexivity | congruence ].
Qed.

Lemma data_inv_dispatcher s s' :
  data_inv s -> step_dispatcher s = Some s' -> data_inv s'.
Proof.
  intros D Hs. unfold step_dispatcher in Hs. di_facts D.
  destruct (d_pc s); break_step Hs; constructor; proj_simpl; auto.
  all: rewrite ?pages_where_app; simpl; rewrite ?app_nil_r; auto.
  all: try (apply Forall_app; split; [assumption | repeat constructor]).
  all: intros Hr; first [ apply Dagg; reflexivity | congruence ].
Qed.

Lemma data_inv_consumer s s' :
  data_inv s -> step_consumer s = Some s' -> data_inv s'.
Proof.
  intros D Hs. unfold step_consumer in Hs. di_facts D.
  destruct (c_pc s); break_step Hs; constructor; proj_simpl;
    auto using Forall_task_logged_mono; try discriminate.
  all: intros Hr;
    first [ specialize (Dagg Hr) | specialize (Dagg eq_refl) | congruence ];
    try match goal with H : chan_buf _ = _ |- _ => rewrite H end;
    simpl in Dagg |- *; rewrite <- ?app_assoc; first [ exact Dagg | congruence ].
Qed.

Lemma data_inv_task g s s' :
  control_inv s -> data_inv s -> step_task g s = Some s' -> data_inv s'.
Proof.
  intros I D Hs. unfold step_task in Hs. di_facts D.
  destruct (tasks s !! g) as [t|] eqn:Hg; [|discriminate].
  pose proof (Forall_lookup_1 _ _ _ _ Dtasks Hg) as Hok.
  pose proof (Forall_lookup_1 _ _ _ _ Dlogged Hg) as Hlg.
  pose proof (count_lookup counted _ _ _ Hg) as Hcounted.
  pose proof (ci_wg _ I) as Iwg.
  unfold task_ok in Hok. unfold task_logged in Hlg.
  destruct (t_pc t) as [| | |[]|[]| |] eqn:Hpc; break_step Hs; bool_facts;
    cbn [counted] in Hcounted; try specialize (Hcounted eq_refl); try lia;
    try (destruct Hok as (response & Hfetch & ->));
    constructor; proj_simpl; try assumption.
  (* the task list *)
  all: try match goal with
       | |- Forall task_ok (<[_ := _]> _) =>
           apply Forall_insert; [assumption|];
           unfold task_ok, succeeds in *; cbn [t_pc t_page];
           try rewrite Hfetch; solve [eauto]
       end.
  (* the log *)
  all: try match goal with
       | |- Forall (task_logged _) (<[_ := _]> _) =>
           apply Forall_insert; [auto using Forall_task_logged_mono|];
           unfold task_logged; cbn [t_pc t_page];
           repeat match goal with H : fetchData _ = _ |- _ => rewrite H in * end;
           solve [ exact Logic.I | assumption
                 | apply in_or_app; right; left; reflexivity ]
       end.
  (* the two histories *)
  all: try match goal with
       | |- Permutation _ (pages_where ?f (<[_ := mkTask _ ?pc]> _)) =>
           first
             [ rewrite (pages_where_insert_same f (tasks s) g t pc Hg);
               [assumption|];
               unfold has_sent; cbn [t_pc t_page]; rewrite Hpc;
               cbn [called_fetch];
               repeat match goal with H : fetchData _ = _ |- _ => rewrite H end;
               reflexivity
             | rewrite (pages_where_insert_gain f (tasks s) g t pc Hg);
               [ apply Permutation_app_tail; assumption
               | unfold has_sent; rewrite Hpc; reflexivity
               | unfold has_sent; cbn [t_pc t_page called_fetch];
                 try rewrite Hfetch; reflexivity ] ]
       end.
  (* the aggregation *)
  all: intros Hr; specialize (Dagg Hr).
  rewrite concat_app, map_app, concat_app, app_assoc, Dagg. simpl.
  unfold batch_of. rewrite Hfetch. reflexivity.
Qed.

Lemma data_inv_step a s s' :
  control_inv s -> data_inv s -> step a s = Some s' -> data_inv s'.
Proof.
  unfold step. destruct (status s); [discriminate|].
  destruct a; eauto using data_inv_main, data_inv_dispatcher,
    data_inv_consumer, data_inv_task.
Qed.

(** ** The writers return *)

Lemma writeCSV_rows_returns filename products : forall w,
  exists r w', writeCSV_rows io_fail filename products w = (Return r, w').
Proof.
  induction products as [|product rest IH]; intros w; simpl.
  - eauto.
  - rewrite formatCategories_spec.
    destruct (csv_Write _ _ _ w) as [[err|] w']; eauto.
Qed.

Lemma writeCSV_returns filename products w :
  exists r w', writeCSV io_fail filename products w = (Return r, w').
Proof.
  unfold writeCSV. destruct (os_Create _ _ w) as [[err|] w1]; [eauto|].
  destruct (csv_Write _ _ _ w1) as [[err|] w2]; [eauto|].
  destruct (writeCSV_rows_returns filename products w2) as (r & w3 & ->). eauto.
Qed.

Lemma writeMarkdown_rows_returns filename products : forall w,
  exists r w', writeMarkdown_rows io_fail filename products w = (Return r, w').
Proof.
  induction products as [|product rest IH]; intros w; simpl.
  - eauto.
  - rewrite formatCategories_spec.
    destruct (file_WriteString _ _ _ w) as [[err|] w']; eauto.
Qed.

Lemma writeMarkdown_returns filename products w :
  exists r w', writeMarkdown io_fail filename products w = (Return r, w').
Proof.
  unfold writeMarkdown. destruct (os_Create _ _ w) as [[err|] w1]; [eauto|].
  destruct (file_WriteString _ _ _ w1) as [[err|] w2]; [eauto|].
  destruct (file_WriteString _ _ _ w2) as [[err|] w3]; [eauto|].
  destruct (writeMarkdown_rows_returns filename products w3) as (r & w4 & ->). eauto.
Qed.

(** ** The output invariant *)

Lemma output_inv_init : output_inv init.
Proof. constructor; simpl; try discriminate; try reflexivity; intros []. Qed.

Ltac oi_facts O := destruct O as [Oworld Ook Ofatal Oprintln].

Ltac oi_log :=
  repeat match goal with
  | H : In _ (_ ++ [_]) |- _ => apply in_app_or in H; destruct H as [H|[H|[]]]
  | |- In _ (_ ++ [_]) => apply in_or_app
  end.

(** The goal [rev = Current -> output_world s']: vacuous for the earlier
    revision, from the invariant of [s] for main.go. *)
Ltac oi_world Oworld Hrev :=
  let Hr := fresh "Hr" in
  intros Hr;
  first [ exfalso; congruence
        | specialize (Oworld eq_refl); unfold output_world in *; proj_simpl ].

Ltac oi_misc Oprintln Hst :=
  intros;
  repeat match goal with
  | H : Some _ = Some _ |- _ => injection H as H; try subst
  | H : ExitFatal _ = ExitFatal _ |- _ => injection H as H; try subst
  | H : In _ (_ ++ [_]) |- _ =>
      apply in_app_or in H; destruct H as [H|[H|[]]]; try discriminate H
  | H : In LogPrintln (log _) |- _ => apply Oprintln in H; congruence
  end;
  try split; try assumption; try discriminate;
  try (apply in_or_app; right; left; reflexivity);
  try (apply in_or_app; left; solve [auto]);
  try congruence; auto.

Lemma output_inv_main s s' :
  control_inv s -> status s = None -> output_inv s ->
  step_main s = Some s' -> output_inv s'.
Proof.
  intros I Hst O Hs. unfold step_main in Hs. oi_facts O.
  pose proof (ci_rev _ I) as Irev. unfold rev_pcs in Irev.
  destruct rev eqn:Hrev; destruct (m_pc s) eqn:Hm;
    try (rewrite andb_false_r in Irev; discriminate Irev);
    try (destruct (writeCSV_returns csvFilename (allProducts s) (world s))
           as (r & w & Hw); rewrite Hw in Hs);
    try (destruct (writeMarkdown_returns markdownFilename (allProducts s) (world s))
           as (r & w & Hw); rewrite Hw in Hs);
    break_step Hs; constructor; proj_simpl;
    try solve [ oi_misc Oprintln Hst ].
  all: try solve [ oi_world Oworld Hrev; rewrite ?Hm, ?Hst in *; congruence ].
  all: try solve [ oi_world Oworld Hrev; rewrite ?Hm, ?Hst in *;
                   try rewrite Oworld in Hw; eauto ].
Qed.

(** A step that leaves [m_pc], [allProducts] and [world] alone and at most
    ends the process by a panic keeps what main has written. *)
Lemma output_world_frame s s' :
  status s = None ->
  m_pc s' = m_pc s -> allProducts s' = allProducts s -> world s' = world s ->
  status s' = None \/ status s' = Some ExitPanic ->
  output_world s -> output_world s'.
Proof.
  unfold output_world. intros Hst -> -> -> Hst'. rewrite Hst.
  destruct Hst' as [-> | ->]; destruct (m_pc s); exact id.
Qed.

Lemma output_inv_dispatcher s s' :
  status s = None -> output_inv s -> step_dispatcher s = Some s' -> output_inv s'.
Proof.
  intros Hst O Hs. unfold step_dispatcher in Hs. oi_facts O.
  destruct (d_pc s) eqn:Hd; break_step Hs; constructor; proj_simpl;
    try solve [ oi_misc Oprintln Hst ].
  all: intros Hr; eapply output_world_frame; try apply (Oworld Hr); proj_simpl;
    rewrite ?Hst; auto.
Qed.

Lemma output_inv_task g s s' :
  status s = None -> output_inv s -> step_task g s = Some s' -> output_inv s'.
Proof.
  intros Hst O Hs. unfold step_task in Hs. oi_facts O.
  destruct (tasks s !! g) as [t|] eqn:Hg; [|discriminate].
  destruct (t_pc t) eqn:Hpc; break_step Hs; constructor; proj_simpl;
    try solve [ oi_misc Oprintln Hst ].
  all: intros Hr; eapply output_world_frame; try apply (Oworld Hr); proj_simpl;
    rewrite ?Hst; auto.
Qed.

Lemma output_inv_consumer s s' :
  control_inv s -> status s = None -> output_inv s ->
  step_consumer s = Some s' -> output_inv s'.
Proof.
  intros I Hst O Hs. unfold step_consumer in Hs. oi_facts O.
  pose proof (ci_rev _ I) as Irev. unfold rev_pcs in Irev.
  pose proof (ci_wg _ I) as Iwg. unfold c_wg in Iwg.
  pose proof (ci_past _ I) as Ipast.
  pose proof (ci_c_idle _ I) as Ici.
  destruct rev eqn:Hrev; destruct (c_pc s) eqn:Hc;
    try (rewrite ?andb_false_r in Irev; discriminate Irev);
    break_step Hs; constructor; proj_simpl;
    try solve [ oi_misc Oprintln Hst ];
    try solve [ intros Hr; discriminate Hr ].
  intros _. specialize (Oworld eq_refl). unfold output_world in *. proj_simpl.
  rewrite Hst in *.
  destruct (m_pc s); cbn [m_past_wait] in Ipast;
    try (specialize (Ipast eq_refl); lia); exact Oworld.
Qed.

Lemma output_inv_step a s s' :
  control_inv s -> output_inv s -> step a s = Some s' -> output_inv s'.
Proof.
  unfold step. destruct (status s) eqn:Hst; [discriminate|].
  destruct a; eauto using output_inv_main, output_inv_dispatcher,
    output_inv_consumer, output_inv_task.
Qed.

(** ** Who can take the process down *)

Lemma panic_inv_step a s s' :
  control_inv s -> panic_inv s -> step a s = Some s' -> panic_inv s'.
Proof.
  intros I P Hs Hrev. unfold step in Hs.
  destruct (status s) eqn:Hst; [discriminate|].
  pose proof (ci_rev _ I) as Irev. unfold rev_pcs in Irev. rewrite Hrev in Irev.
  destruct a as [| | |g].
  - unfold step_main in Hs.
    destruct (m_pc s) eqn:Hm;
      try (destruct (writeCSV_returns csvFilename (allProducts s) (world s))
             as (r & w & Hw); rewrite Hw in Hs);
      try (destruct (writeMarkdown_returns markdownFilename (allProducts s) (world s))
             as (r & w & Hw); rewrite Hw in Hs);
      break_step Hs; proj_simpl; try congruence;
      rewrite ?andb_false_r in Irev; discriminate.
  - unfold step_dispatcher in Hs.
    destruct (d_pc s) eqn:Hd; break_step Hs; proj_simpl; try congruence;
      discriminate.
  - unfold step_consumer in Hs.
    destruct (c_pc s) eqn:Hc; break_step Hs; proj_simpl; try congruence;
      rewrite ?andb_false_r in Irev; discriminate.
  - unfold step_task in Hs.
    destruct (tasks s !! g) as [t|] eqn:Hg; [|discriminate].
    destruct (t_pc t) eqn:Hpc; break_step Hs; proj_simpl; try congruence.
    intros _. eapply count_lookup; [exact Hg|]. rewrite Hpc. reflexivity.
Qed.

(** ** The CSV file of the earlier revision *)

Lemma csv_records_snoc name w ev :
  csv_records name (w ++ [ev])
  = match ev with
    | EvCreate n true => if String.eqb n name then [] else csv_records name w
    | EvCsvWrite n record true =>
        if String.eqb n name then csv_records name w ++ [record] else csv_records name w
    | _ => csv_records name w
    end.
Proof.
  unfold csv_records. rewrite fold_left_app. simpl.
  destruct ev as [n []|n record []| | |]; reflexivity.
Qed.

Lemma csv_records_deferred w :
  csv_records csvFilename (csv_deferred w) = csv_records csvFilename w.
Proof.
  unfold csv_deferred.
  change [EvCsvFlush csvFilename; EvClose csvFilename]
    with ([EvCsvFlush csvFilename] ++ [EvClose csvFilename]).
  now rewrite app_assoc, !csv_records_snoc.
Qed.

Lemma earlier_csv_init : earlier_csv_inv init.
Proof. intros _. exists []. repeat split. Qed.

Lemma earlier_csv_step a s s' :
  control_inv s -> data_inv s -> earlier_csv_inv s ->
  step a s = Some s' -> earlier_csv_inv s'.
Proof.
  intros I D E Hs Hrev. specialize (E Hrev). destruct E as (written & Hrec & Hpre & Hsum).
  unfold step in Hs. destruct (status s) eqn:Hst; [discriminate|].
  pose proof (ci_rev _ I) as Irev. unfold rev_pcs in Irev. rewrite Hrev in Irev.
  unfold c_pending in *.
  destruct a as [| | |g].
  - unfold step_main in Hs. pose proof (ci_c_idle _ I) as Ici.
    destruct (m_pc s) eqn:Hm; try (rewrite ?andb_false_r in Irev; discriminate Irev);
      break_step Hs; proj_simpl; try congruence;
      exists written; try (repeat split; assumption).
    destruct (c_pc s); try discriminate Ici. repeat split; assumption.
  - unfold step_dispatcher in Hs.
    destruct (d_pc s) eqn:Hd; break_step Hs; proj_simpl;
      exists written; repeat split; assumption.
  - unfold step_consumer, os_Create, csv_Write in Hs. rewrite Hrev in Hs.
    destruct (c_pc s) as [| | | |[|product rest]| | | |] eqn:Hc;
      try rewrite formatCategories_spec in Hs;
      try destruct (io_fail (length (world s)));
      break_step Hs; unfold fatal; proj_simpl; rewrite ?Hc;
      try match goal with H : chan_buf _ = _ |- _ => rewrite H end;
      rewrite ?csv_records_deferred, ?csv_records_snoc, ?String.eqb_refl;
      simpl in *;
      try (exists written; repeat split; solve [assumption | auto | easy]).
    + (* the header is written *)
      exists []. rewrite (Hpre eq_refl) in *. rewrite Hrec.
      repeat split; assumption.
    + (* one record is written *)
      exists (written ++ [product]). rewrite Hrec, map_app. simpl.
      repeat split; try easy. now rewrite <- app_assoc.
  - unfold step_task in Hs.
    destruct (tasks s !! g) as [t|] eqn:Hg; [|discriminate].
    pose proof (Forall_lookup_1 _ _ _ _ (di_tasks _ D) Hg) as Hok.
    unfold task_ok in Hok.
    destruct (t_pc t) eqn:Hpc; break_step Hs; proj_simpl;
      try (exists written; repeat split; assumption).
    destruct Hok as (response & Hfetch & ->).
    exists written. repeat split; try assumption.
    rewrite map_app, !concat_app, !app_assoc, <- (app_assoc written), Hsum.
    simpl. unfold batch_of. rewrite Hfetch. now rewrite !app_nil_r.
Qed.

(** ** All invariants, for every reachable state *)

Lemma inv_init : inv init.
Proof.
  constructor;
    [apply control_inv_init | apply data_inv_init | apply output_inv_init |
    | apply earlier_csv_init].
  intros _ Hst. discriminate Hst.
Qed.

Lemma inv_step a s s' : inv s -> step a s = Some s' -> inv s'.
Proof.
  intros [I D O P E] Hs. constructor;
    eauto using control_inv_step, data_inv_step, output_inv_step, panic_inv_step,
      earlier_csv_step.
Qed.

Lemma inv_run sched : forall s s', inv s -> run sched s = Some s' -> inv s'.
Proof.
  induction sched as [|a sched IH]; simpl; intros s s' I Hr.
  - injection Hr as <-. exact I.
  - destruct (step a s) as [s1|] eqn:Hs; [|discriminate].
    eapply IH; [|exact Hr]. eapply inv_step; eassumption.
Qed.

Lemma inv_reachable s : reachable s -> inv s.
Proof. intros [sched Hr]. eapply inv_run; [apply inv_init | exact Hr]. Qed.

Lemma reachable_init : reachable init.
Proof. exists []. reflexivity. Qed.

Lemma run_app sched1 : forall sched2 s,
  run (sched1 ++ sched2) s
  = match run sched1 s with Some s1 => run sched2 s1 | None => None end.
Proof.
  induction sched1 as [|a sched1 IH]; simpl; intros sched2 s; [reflexivity|].
  destruct (step a s); [apply IH | reflexivity].
Qed.

Lemma reachable_step a s s' : reachable s -> step a s = Some s' -> reachable s'.
Proof.
  intros [sched Hr] Hs. exists (sched ++ [a]).
  rewrite run_app, Hr. simpl. now rewrite Hs.
Qed.




(** ** Consequences used by the claims *)

Lemma NoDup_pages_where f l :
  List.NoDup (map t_page l) -> List.NoDup (pages_where f l).
Proof.
  induction l as [|t l IH]; simpl; intros Hnd; [constructor|].
  apply List.NoDup_cons_iff in Hnd. destruct Hnd as [Hnotin Hnd].
  destruct (f t); [|apply IH, Hnd].
  constructor; [|apply IH, Hnd].
  intros Hin. apply Hnotin. eapply pages_where_incl, Hin.
Qed.

Lemma pages_where_has_sent_succeeds l page :
  In page (pages_where has_sent l) -> succeeds page = true.
Proof.
  induction l as [|t l IH]; simpl; [intros []|].
  destruct (has_sent t) eqn:Hs; [|exact IH].
  intros [<-|Hin]; [|apply IH, Hin].
  unfold has_sent in Hs. unfold succeeds.
  destruct (t_pc t) as [| | |[]|[]| |]; try discriminate Hs;
    destruct (fetchData (t_page t)); congruence.
Qed.

Lemma count_in_fetch_le l : count in_fetch l <= count holds_token l.
Proof. apply count_mono. intros []; simpl; intros; congruence. Qed.

(** When the WaitGroup counter is zero every launched task is over. *)
Lemma count_counted_zero l :
  count counted l = 0 -> forall t, In t l -> t_pc t = TExit \/ t_pc t = TDie.
Proof.
  induction l as [|u l IH]; simpl; intros H0 t []; subst.
  - destruct (t_pc t); simpl in H0; auto; lia.
  - apply IH; [|assumption]. destruct (counted (t_pc u)); simpl in H0; lia.
Qed.

(** Once [wg.Wait()] has returned, the fetching goroutine is over, every
    page has its task, and every task is over. *)
Lemma past_wait_all_over s :
  reachable s -> m_past_wait (m_pc s) = true ->
  map t_page (tasks s) = seq 0 pageMax /\
  count counted (tasks s) = 0 /\
  (rev = Current -> c_pc s = CExit).
Proof.
  intros Hr Hpast. destruct (inv_reachable s Hr) as [I _ _ _ _]. ci_facts I.
  specialize (Ipast Hpast). unfold c_wg, rev_pcs in *.
  assert (Hd : d_running (d_pc s) = false /\ count counted (tasks s) = 0).
  { destruct (m_pc s); try discriminate Hpast; simpl in Iwg;
      destruct (d_running (d_pc s)); split; try reflexivity; try lia. }
  destruct Hd as [Hd Hc]. split; [|split]; [|exact Hc|].
  - rewrite Ipages. f_equal.
    destruct (d_pc s) as [| | | | |[]| |]; try discriminate; try reflexivity.
    destruct (m_pc s); discriminate.
  - intros Hcur. rewrite Hcur in *.
    destruct (m_pc s); try discriminate Hpast;
      destruct (c_pc s); try discriminate; try reflexivity;
      simpl in Iwg; try lia;
      rewrite andb_false_r in Irev; discriminate.
Qed.

Lemma count_pos_lookup f (l : list Task) :
  1 <= count f l -> exists g t, l !! g = Some t /\ f (t_pc t) = true.
Proof.
  induction l as [|u l IH]; simpl; intros Hc; [lia|].
  destruct (f (t_pc u)) eqn:Hf.
  - exists 0, u. split; [reflexivity | exact Hf].
  - destruct IH as (g & t & Hg & Ht); [lia|]. exists (S g), t. split; assumption.
Qed.

Lemma lookup_set_task g t pc s :
  tasks s !! g = Some t ->
  tasks (set_task g t pc s) !! g = Some (mkTask (t_page t) pc).
Proof.
  intros Hg. simpl. apply list_lookup_insert_eq. eapply lookup_lt_Some, Hg.
Qed.

(* =================================================================== *)
(** * Part IV: the properties of the specification                     *)
(* =================================================================== *)


(** C3 (concurrency bound).  In every reachable state of either revision,
    for every page count and every ceiling (in particular every ceiling
    >= 1): the tasks that are inside [fetchData] are among the tasks that
    hold a token, those are at most [maxConcurrent], and the tokens in
    [sem] are exactly one per such task plus the one the dispatcher has
    acquired for the task it is about to launch.  Every path of a task
    leads to its [<-sem]: after the fetch it is at the send or at the
    release, after the send (done or panicked) it is at the release, and
    at the release it can always step and gives back one token. *)
Theorem C3_concurrency_bound s :
  reachable s ->
  count in_fetch (tasks s) <= count holds_token (tasks s) /\
  count holds_token (tasks s) <= maxConcurrent /\
  sem s = count holds_token (tasks s) + d_token (d_pc s) /\
  sem s <= maxConcurrent /\
  (forall g t,
      status s = None -> tasks s !! g = Some t -> t_pc t = TFetching ->
      exists s' pc',
        step (ATask g) s = Some s' /\
        tasks s' !! g = Some (mkTask (t_page t) pc') /\
        (pc' = TRelease false \/ exists products, pc' = TSend products)) /\
  (forall g t products s',
      tasks s !! g = Some t -> t_pc t = TSend products ->
      step (ATask g) s = Some s' ->
      exists panicking, tasks s' !! g = Some (mkTask (t_page t) (TRelease panicking))) /\
  (forall g t panicking,
      status s = None -> tasks s !! g = Some t -> t_pc t = TRelease panicking ->
      exists s',
        step (ATask g) s = Some s' /\
        S (sem s') = sem s /\
        tasks s' !! g = Some (mkTask (t_page t) (TDone panicking))).
Proof.
  intros Hr. destruct (inv_reachable s Hr) as [I _ _ _ _]. ci_facts I.
  split; [apply count_in_fetch_le|].
  split; [lia|]. split; [exact Isem|]. split; [exact Isemle|].
  split; [|split].
  - intros g t Hst Hg Hpc. unfold step, step_task. rewrite Hst, Hg, Hpc.
    destruct (fetchData (t_page t)) as [response|]; eexists _, _;
      (split; [reflexivity|]); (split; [apply lookup_set_task; assumption|]); eauto.
  - intros g t products s' Hg Hpc Hs. unfold step, step_task in Hs.
    destruct (status s); [discriminate|]. rewrite Hg, Hpc in Hs.
    break_step Hs; eexists; apply lookup_set_task; assumption.
  - intros g t pk Hst Hg Hpc.
    pose proof (count_lookup holds_token _ _ _ Hg) as Hh.
    rewrite Hpc in Hh. specialize (Hh eq_refl).
    unfold step, step_task. rewrite Hst, Hg, Hpc.
    destruct (sem s) as [|n] eqn:Hsem; [lia|].
    eexists. split; [reflexivity|]. split; [reflexivity|].
    apply lookup_set_task. assumption.
Qed.

(** No deadlock while pages remain: with a ceiling of at least one, a
    live process whose dispatcher is still in its loop has a goroutine
    that can take a step. *)
Lemma dispatch_progress s :
  reachable s -> 1 <= maxConcurrent -> status s = None ->
  d_in_loop (d_pc s) = true ->
  exists a s', step a s = Some s'.
Proof.
  intros Hr HM Hst Hloop. destruct (inv_reachable s Hr) as [I _ _ _ _]. ci_facts I.
  unfold step. rewrite Hst.
  destruct (d_pc s) as [|page|page|page| | | |] eqn:Hd; try discriminate Hloop.
  2,3: exists ADispatcher; unfold step_dispatcher; rewrite Hd; eauto.
  destruct (page <? pageMax)%nat eqn:Hp;
    [|exists ADispatcher; unfold step_dispatcher; rewrite Hd, Hp; eauto].
  destruct (sem s <? maxConcurrent)%nat eqn:Hs;
    [exists ADispatcher; unfold step_dispatcher; rewrite Hd, Hp, Hs; eauto|].
  bool_facts. simpl in Isem.
  destruct (count_pos_lookup holds_token (tasks s)) as (g & t & Hg & Hh); [lia|].
  destruct (t_pc t) as [| |products|pk| | |] eqn:Hpc; try discriminate Hh.
  - exists (ATask g). unfold step_task. rewrite Hg, Hpc. eauto.
  - exists (ATask g). unfold step_task. rewrite Hg, Hpc.
    destruct (fetchData (t_page t)); eauto.
  - destruct (chan_closed s) eqn:Hcl;
      [exists (ATask g); unfold step_task; rewrite Hg, Hpc, Hcl; eauto|].
    destruct (length (chan_buf s) <? maxConcurrent)%nat eqn:Hb;
      [exists (ATask g); unfold step_task; rewrite Hg, Hpc, Hcl, Hb; eauto|].
    bool_facts.
    destruct (chan_buf s) as [|batch buf] eqn:Hbuf; [simpl in Hb; lia|].
    destruct (m_before_c (m_pc s)) eqn:Hm.
    { exists AMain. unfold step_main.
      destruct (m_pc s); try discriminate Hm; eauto. }
    exists AConsumer. unfold step_consumer. rewrite Hbuf.
    destruct (c_pc s) as [| | | |[|product rest]| | | |] eqn:Hc;
      try discriminate Ici; eauto;
      try (destruct Idrain as [? _]; [reflexivity|congruence]).
    + destruct (os_Create _ _ _) as [[?|] ?]; eauto.
    + destruct (csv_Write _ _ _ _) as [[?|] ?]; eauto.
    + rewrite formatCategories_spec.
      destruct (csv_Write _ _ _ _) as [[?|] ?]; eauto.
  - exists (ATask g). unfold step_task. rewrite Hg, Hpc.
    destruct (sem s); [lia|eauto].
Qed.

(** C7 (a fetch error is not fatal).  For a task of either revision whose
    page fails to fetch, in every reachable state: it is never at the
    send, its page never enters [productsChan], it never panics; once its
    fetch is over the error is in the log with its page index; and from
    the point where [fetchData] returns the error, the task takes its
    three remaining steps (log and return, [<-sem], [wg.Done()]) without
    waiting for anyone: one token and one unit of the WaitGroup are given
    back, one line is logged, the process stays alive, and nothing else
    of the state changes. *)
Theorem C7_fetch_error_not_fatal s g t :
  reachable s ->
  tasks s !! g = Some t ->
  fetchData (t_page t) = None ->
  (forall products, t_pc t <> TSend products) /\
  ~ In (t_page t) (sent s) /\
  panicking (t_pc t) = false /\
  (called_fetch (t_pc t) = true -> t_pc t <> TFetching ->
     In (LogFetchError (t_page t)) (log s)) /\
  (status s = None -> t_pc t = TFetching ->
     exists s1 s2 s3,
       step (ATask g) s = Some s1 /\
       step (ATask g) s1 = Some s2 /\
       step (ATask g) s2 = Some s3 /\
       s1 = set_task g t (TRelease false) (add_log (LogFetchError (t_page t)) s) /\
       tasks s3 = <[g := mkTask (t_page t) TExit]> (tasks s) /\
       S (sem s3) = sem s /\
       S (wg s3) = wg s /\
       log s3 = log s ++ [LogFetchError (t_page t)] /\
       status s3 = None /\
       m_pc s3 = m_pc s /\ d_pc s3 = d_pc s /\ c_pc s3 = c_pc s /\
       chan_buf s3 = chan_buf s /\ chan_closed s3 = chan_closed s /\
       allProducts s3 = allProducts s /\ world s3 = world s /\
       sent s3 = sent s /\ fetched s3 = fetched s).
Proof.
  intros Hr Hg Hfail. destruct (inv_reachable s Hr) as [I D _ _ _].
  pose proof (Forall_lookup_1 _ _ _ _ (di_tasks _ D) Hg) as Hok.
  pose proof (Forall_lookup_1 _ _ _ _ (di_logged _ D) Hg) as Hlg.
  unfold task_ok, succeeds in Hok. unfold task_logged in Hlg.
  rewrite Hfail in Hok, Hlg.
  split; [|split; [|split; [|split]]].
  - intros products Hpc. rewrite Hpc in Hok.
    destruct Hok as (response & Hsome & _). discriminate Hsome.
  - intros Hin.
    eapply Permutation_in in Hin; [|exact (di_sent _ D)].
    apply pages_where_has_sent_succeeds in Hin.
    unfold succeeds in Hin. rewrite Hfail in Hin. discriminate Hin.
  - destruct (t_pc t) as [| | |[]|[]| |]; try reflexivity; discriminate Hok.
  - intros Hcalled Hnf.
    destruct (t_pc t); try discriminate Hcalled; try congruence; exact Hlg.
  - intros Hst Hpc.
    pose proof (count_lookup holds_token _ _ _ Hg) as Hh.
    pose proof (count_lookup counted _ _ _ Hg) as Hc.
    rewrite Hpc in Hh, Hc. specialize (Hh eq_refl). specialize (Hc eq_refl).
    pose proof (ci_sem _ I) as Isem. pose proof (ci_wg _ I) as Iwg.
    destruct (sem s) as [|n] eqn:Hsem; [lia|].
    destruct (wg s) as [|k] eqn:Hwg; [lia|].
    assert (Hlt : g < length (tasks s)) by (eapply lookup_lt_Some, Hg).
    eexists _, _, _. unfold step, step_task.
    rewrite Hst, Hg, Hpc, Hfail. split; [reflexivity|].
    proj_simpl. rewrite Hst, Hsem.
    rewrite list_lookup_insert_eq by exact Hlt. cbn [t_pc t_page].
    split; [reflexivity|].
    proj_simpl. rewrite Hst, Hwg.
    rewrite list_lookup_insert_eq by (rewrite length_insert; exact Hlt).
    cbn [t_pc t_page]. split; [reflexivity|].
    split; [reflexivity|].
    proj_simpl. rewrite !list_insert_insert_eq.
    repeat split; try reflexivity; assumption.
Qed.

(** ** Supporting lemmas for main.go *)

Lemma filenames_differ : rev = Current -> csvFilename <> markdownFilename.
Proof.
  intros Hrev Heq. unfold csvFilename, markdownFilename in Heq. rewrite Hrev in Heq.
  apply (f_equal String.length) in Heq.
  rewrite !string_length_app in Heq. simpl in Heq. lia.
Qed.

Lemma writeCSV_rows_events filename products : forall w r w',
  writeCSV_rows io_fail filename products w = (r, w') ->
  exists evs, w' = w ++ evs /\ Forall (fun ev => event_file ev = filename) evs.
Proof.
  induction products as [|product rest IH]; simpl; intros w r w' Hw.
  - injection Hw as <- <-. exists []. split; [now rewrite app_nil_r | constructor].
  - rewrite formatCategories_spec in Hw. unfold csv_Write in Hw.
    destruct (io_fail (length w)).
    + injection Hw as <- <-. eexists. split; [reflexivity | repeat constructor].
    + apply IH in Hw. destruct Hw as (evs & -> & Hevs).
      eexists. rewrite <- app_assoc. split; [reflexivity|].
      constructor; [reflexivity | exact Hevs].
Qed.

Lemma writeCSV_events filename products w r w' :
  writeCSV io_fail filename products w = (r, w') ->
  exists evs, w' = w ++ evs /\ Forall (fun ev => event_file ev = filename) evs.
Proof.
  unfold writeCSV, os_Create, csv_Write. intros Hw.
  destruct (io_fail (length w)).
  { injection Hw as <- <-. eexists. split; [reflexivity | repeat constructor]. }
  destruct (io_fail (length (w ++ [EvCreate filename true]))).
  { injection Hw as <- <-. eexists. rewrite <- !app_assoc. split; [reflexivity|].
    repeat constructor. }
  destruct (writeCSV_rows _ _ _ _) as [r2 w2] eqn:Hrows.
  injection Hw as <- <-.
  apply writeCSV_rows_events in Hrows. destruct Hrows as (evs & -> & Hevs).
  eexists. rewrite <- !app_assoc. split; [reflexivity|].
  repeat (first [apply Forall_app; split | apply Forall_cons; split
                | apply Forall_nil ]); auto.
Qed.

(** ** Every run is finite *)

Lemma tasks_weight_app l l' :
  tasks_weight (l ++ l') = tasks_weight l + tasks_weight l'.
Proof. induction l as [|t l IH]; simpl; [reflexivity | rewrite IH; lia]. Qed.

Lemma tasks_weight_insert (l : list Task) g t t' :
  l !! g = Some t ->
  tasks_weight (<[g := t']> l) + task_weight t = tasks_weight l + task_weight t'.
Proof.
  revert g. induction l as [|u l IH]; intros [|g] Hg; simpl in *; try discriminate.
  - injection Hg as ->. lia.
  - specialize (IH g Hg). lia.
Qed.

Lemma buf_weight_app buf buf' :
  buf_weight (buf ++ buf') = buf_weight buf + buf_weight buf'.
Proof. induction buf as [|b buf IH]; simpl; [reflexivity | rewrite IH; lia]. Qed.

Lemma loop_weight_lt page :
  page < pageMax ->
  loop_weight page (pageMax - page)
  = 3 + (6 + batch_cost (batch_of page)) + loop_weight (S page) (pageMax - S page).
Proof.
  intros Hlt. replace (pageMax - page) with (S (pageMax - S page)) by lia. reflexivity.
Qed.

Lemma loop_weight_ge page : pageMax <= page -> loop_weight page (pageMax - page) = 4.
Proof. intros Hge. replace (pageMax - page) with 0 by lia. reflexivity. Qed.

Ltac measure_simpl :=
  unfold measure, fatal; proj_simpl;
  repeat match goal with
  | H : status _ = _ |- _ => rewrite H
  | H : m_pc _ = _ |- _ => rewrite H
  | H : d_pc _ = _ |- _ => rewrite H
  | H : c_pc _ = _ |- _ => rewrite H
  | H : chan_buf _ = _ |- _ => rewrite H
  end;
  cbn [m_weight d_weight c_weight buf_weight batch_cost length];
  rewrite ?Nat.sub_0_r, ?tasks_weight_app, ?buf_weight_app;
  cbn [tasks_weight task_weight buf_weight batch_cost t_pc t_page length];
  unfold batch_cost.

(** Every step of every goroutine lowers the measure. *)
Lemma step_decreases a s s' :
  control_inv s -> step a s = Some s' -> measure s' < measure s.
Proof.
  intros I. unfold step. destruct (status s) eqn:Hst; [discriminate|].
  pose proof (ci_d_idle _ I) as Idi. pose proof (ci_c_idle _ I) as Ici.
  destruct a as [| | |g]; intros Hs.
  - unfold step_main in Hs.
    destruct (m_pc s) eqn:Hm; break_step Hs; measure_simpl; try lia.
    1,2: destruct (d_pc s); try discriminate Idi; simpl; lia.
    all: destruct (c_pc s); try discriminate Ici; simpl; lia.
  - unfold step_dispatcher in Hs.
    destruct (d_pc s) eqn:Hd; break_step Hs; bool_facts; measure_simpl;
      try match goal with
          | H : ?p < pageMax |- _ => rewrite (loop_weight_lt p H)
          | H : pageMax <= ?p |- _ => rewrite (loop_weight_ge p H)
          end;
      unfold batch_cost; try lia; destruct panicking; simpl; lia.
  - unfold step_consumer in Hs.
    destruct (c_pc s) as [| | | |[|product rest]| | | |] eqn:Hc;
      break_step Hs; measure_simpl; lia.
  - unfold step_task in Hs.
    destruct (tasks s !! g) as [t|] eqn:Hg; [|discriminate].
    destruct (t_pc t) eqn:Hpc; break_step Hs; measure_simpl;
      try match goal with
          | |- context [tasks_weight (<[g := ?t']> (tasks s))] =>
              pose proof (tasks_weight_insert (tasks s) g t t' Hg) as Hw;
              unfold task_weight in Hw; cbn [t_pc t_page] in Hw; rewrite Hpc in Hw
          end;
      unfold batch_of, batch_cost in *;
      repeat match goal with H : fetchData _ = _ |- _ => rewrite H in * end;
      simpl in *; try lia;
      destruct panicking; simpl in *; lia.
Qed.

Lemma run_length sched : forall s s',
  inv s -> run sched s = Some s' -> length sched + measure s' <= measure s.
Proof.
  induction sched as [|a sched IH]; simpl; intros s s' I Hr.
  - injection Hr as <-. lia.
  - destruct (step a s) as [s1|] eqn:Hs; [|discriminate].
    pose proof (step_decreases a s s1 (inv_control _ I) Hs).
    pose proof (IH s1 s' (inv_step a s s1 I Hs) Hr). lia.
Qed.

(** main.go has launched every task when its process ends. *)
Lemma current_ended_all_launched s :
  rev = Current -> reachable s -> status s <> None ->
  map t_page (tasks s) = seq 0 pageMax.
Proof.
  intros Hrev Hr Hst. destruct (inv_reachable s Hr) as [I _ O P _].
  destruct O as [Oworld Ook Ofatal Oprintln].
  specialize (Oworld Hrev). unfold output_world in Oworld.
  assert (Hcase : m_past_wait (m_pc s) = true \/ status s = Some ExitPanic).
  { destruct (status s) as [[|err|]|] eqn:Hs; try congruence; auto; left.
    - destruct (Ook eq_refl) as [-> _]. reflexivity.
    - destruct (m_pc s); try contradiction; reflexivity. }
  destruct Hcase as [Hpast|Hpanic].
  - apply (past_wait_all_over s Hr Hpast).
  - pose proof (ci_panicking _ I (P Hrev Hpanic)) as Hcl.
    pose proof (ci_closed _ I) as Iclosed. unfold closed_by in Iclosed.
    rewrite Hrev, Hcl in Iclosed. rewrite (ci_pages _ I).
    destruct (d_pc s); try discriminate Iclosed; reflexivity.
Qed.

(** C6 (no duplicate dispatch).  In every reachable state of either
    revision the pages of the launched tasks are exactly [0, 1, ..., k-1]
    in this order, [k <= pageMax] being the loop counter, so no index is
    skipped or launched twice; the pages passed to [fetchData] are without
    repetition and among the launched ones (a task calls [fetchData] once,
    whatever the outcome); when the loop is left every index of
    [0, pageMax) has its task; when [wg.Wait()] has returned every index
    of [0, pageMax) has been fetched exactly once.  The loop does get to its
    end: with a ceiling >= 1 the process is not stuck while the loop runs,
    every run is finite, and a process of main.go that has ended has
    launched the task of every index. *)
Theorem C6_dispatch_exactly_once s :
  reachable s ->
  map t_page (tasks s) = seq 0 (launched (d_pc s)) /\
  launched (d_pc s) <= pageMax /\
  List.NoDup (fetched s) /\
  incl (fetched s) (seq 0 (launched (d_pc s))) /\
  (d_in_loop (d_pc s) = false -> m_before_d (m_pc s) = false ->
     map t_page (tasks s) = seq 0 pageMax) /\
  (m_past_wait (m_pc s) = true -> Permutation (fetched s) (seq 0 pageMax)) /\
  (1 <= maxConcurrent -> status s = None -> d_in_loop (d_pc s) = true ->
     exists a s', step a s = Some s') /\
  (forall sched, run sched init = Some s -> length sched <= measure init) /\
  (rev = Current -> status s <> None -> map t_page (tasks s) = seq 0 pageMax).
Proof.
  intros Hr. destruct (inv_reachable s Hr) as [I D _ _ _].
  pose proof (ci_pages _ I) as Ipages. pose proof (ci_bound _ I) as Ibound.
  pose proof (ci_d_idle _ I) as Idi. pose proof (di_fetched _ D) as Dfetched.
  assert (Hnd : List.NoDup (pages_where (fun t => called_fetch (t_pc t)) (tasks s))).
  { apply NoDup_pages_where. rewrite Ipages. apply seq_NoDup. }
  split; [exact Ipages|].
  split; [|split; [|split; [|split; [|split; [|split; [|split]]]]]].
  - destruct (d_pc s); simpl; lia.
  - eapply Permutation_NoDup; [symmetry; exact Dfetched | exact Hnd].
  - intros page Hin. rewrite <- Ipages.
    eapply pages_where_incl. eapply Permutation_in; [exact Dfetched | exact Hin].
  - intros Hloop Hm. rewrite Ipages. f_equal.
    destruct (d_pc s); try discriminate Hloop; try reflexivity.
    rewrite Hm in Idi. discriminate Idi.
  - intros Hpast. destruct (past_wait_all_over s Hr Hpast) as (Hpages & Hcount & _).
    rewrite Dfetched, <- Hpages. rewrite pages_where_all; [reflexivity|].
    intros t Ht. destruct (count_counted_zero _ Hcount t Ht) as [-> | ->]; reflexivity.
  - intros HM Hst Hloop. eapply dispatch_progress; eassumption.
  - intros sched Hrun. pose proof (run_length sched init s inv_init Hrun). lia.
  - intros Hrev Hst. apply current_ended_all_launched; assumption.
Qed.

(** main.go is never stuck: with a ceiling of at least one (or with no
    page at all) some goroutine of a live process can take a step. *)
Lemma current_progress s :
  rev = Current -> reachable s -> 1 <= maxConcurrent \/ pageMax = 0 ->
  status s = None ->
  exists a s', step a s = Some s'.
Proof.
  intros Hrev Hr HM Hst. destruct (inv_reachable s Hr) as [I _ _ _ _].
  pose proof I as I'. ci_facts I'.
  unfold c_wg, rev_pcs, closed_by in *. rewrite Hrev in *.
  destruct (m_pc s) eqn:Hm;
    try (exists AMain; unfold step, step_main; rewrite Hst, Hm; solve [eauto]);
    try (rewrite andb_false_r in Irev; discriminate Irev).
  - (* wg.Wait() *)
    destruct (wg s) as [|k] eqn:Hwg;
      [exists AMain; unfold step, step_main; rewrite Hst, Hm, Hwg; eauto|].
    destruct (d_pc s) as [|page| | | |[]| |] eqn:Hd; try discriminate.
    + destruct (page <? pageMax)%nat eqn:Hp.
      * apply Nat.ltb_lt in Hp.
        eapply dispatch_progress; try eassumption; [lia | now rewrite Hd].
      * exists ADispatcher. unfold step, step_dispatcher. rewrite Hst, Hd, Hp. eauto.
    + exists ADispatcher. unfold step, step_dispatcher. rewrite Hst, Hd. eauto.
    + exists ADispatcher. unfold step, step_dispatcher. rewrite Hst, Hd. eauto.
    + exists ADispatcher. unfold step, step_dispatcher. rewrite Hst, Hd.
      destruct (chan_closed s); eauto.
    + exists ADispatcher. unfold step, step_dispatcher. rewrite Hst, Hd, Hwg. eauto.
    + simpl in Iwg, Isem, Iclosed.
      destruct (c_pc s) eqn:Hc; try discriminate.
      * exists AConsumer. unfold step, step_consumer. rewrite Hst, Hc, Iclosed, Hrev.
        destruct (chan_buf s); eauto.
      * exists AConsumer. unfold step, step_consumer. rewrite Hst, Hc, Hwg. eauto.
      * destruct (count_pos_lookup counted (tasks s)) as (g & t & Hg & Ht); [lia|].
        pose proof (count_lookup holds_token _ _ _ Hg) as Hh.
        exists (ATask g). unfold step, step_task. rewrite Hst, Hg.
        destruct (t_pc t) eqn:Hpc; try discriminate Ht; simpl in Hh.
        -- eauto.
        -- destruct (fetchData (t_page t)); eauto.
        -- rewrite Iclosed. eauto.
        -- specialize (Hh eq_refl). destruct (sem s); [lia|eauto].
        -- rewrite Hwg. eauto.
  - (* writeCSV *)
    exists AMain. unfold step, step_main. rewrite Hst, Hm.
    destruct (writeCSV_returns csvFilename (allProducts s) (world s))
      as ([err|] & w & ->); eauto.
  - (* writeMarkdown *)
    exists AMain. unfold step, step_main. rewrite Hst, Hm.
    destruct (writeMarkdown_returns markdownFilename (allProducts s) (world s))
      as ([err|] & w & ->); eauto.
Qed.

(** In main.go a process that no task has taken down has not panicked. *)
Lemma current_no_panic_without_task s :
  rev = Current -> reachable s -> count panicking (tasks s) = 0 ->
  status s <> Some ExitPanic.
Proof.
  intros Hrev Hr Hc Hst. destruct (inv_reachable s Hr) as [_ _ _ P _].
  specialize (P Hrev Hst). lia.
Qed.

(** With no page there is nothing to fetch, send or aggregate. *)
Lemma zero_pages_nothing s :
  pageMax = 0 -> reachable s ->
  tasks s = [] /\ fetched s = [] /\ sent s = [] /\
  (rev = Current -> allProducts s = []).
Proof.
  intros HN Hr. destruct (inv_reachable s Hr) as [I D _ _ _].
  pose proof (ci_pages _ I) as Ipages. pose proof (ci_bound _ I) as Ibound.
  assert (Ht : tasks s = []).
  { apply (map_eq_nil t_page). rewrite Ipages.
    replace (launched (d_pc s)) with 0; [reflexivity|].
    destruct (d_pc s); simpl; lia. }
  pose proof (di_fetched _ D) as Df. pose proof (di_sent _ D) as Ds.
  rewrite Ht in Df, Ds. simpl in Df, Ds.
  apply Permutation_sym, Permutation_nil in Df, Ds.
  repeat split; try assumption.
  intros Hcur. pose proof (di_agg _ D Hcur) as Da. rewrite Ds in Da. simpl in Da.
  apply app_eq_nil in Da. apply Da.
Qed.

(** The two writers on an empty collection: when neither returns an
    error, the trace is the header-only one. *)
Lemma writers_header_only w1 w2 :
  writeCSV io_fail csvFilename [] [] = (Return None, w1) ->
  writeMarkdown io_fail markdownFilename [] w1 = (Return None, w2) ->
  w2 = header_only.
Proof.
  unfold writeCSV, writeMarkdown, os_Create, csv_Write, file_WriteString. simpl.
  destruct (io_fail 0); simpl; [discriminate|].
  destruct (io_fail 1); simpl; [discriminate|].
  intros [= <-]. simpl.
  destruct (io_fail 4); simpl; [discriminate|].
  destruct (io_fail 5); simpl; [discriminate|].
  destruct (io_fail 6); simpl; [discriminate|].
  intros [= <-]. reflexivity.
Qed.

Lemma csv_records_header_only :
  rev = Current -> csv_records csvFilename header_only = [csv_header].
Proof.
  intros Hrev. unfold csv_records, header_only. cbn [fold_left].
  rewrite !String.eqb_refl.
  destruct (String.eqb_spec markdownFilename csvFilename) as [Heq|_];
    [symmetry in Heq; now apply filenames_differ in Heq | reflexivity].
Qed.

Lemma file_text_header_only :
  rev = Current ->
  file_text markdownFilename header_only
  = (md_line md_header ++ md_line md_separator)%string.
Proof.
  intros Hrev. unfold file_text, header_only. cbn [fold_left].
  rewrite !String.eqb_refl.
  destruct (String.eqb_spec csvFilename markdownFilename) as [Heq|_];
    [now apply filenames_differ in Heq | reflexivity].
Qed.

(** C5 (zero pages).  In main.go with [pageMax = 0], in every reachable
    state: no task was launched, [fetchData] was never called, nothing was
    sent and [allProducts] is empty; the process has not panicked, while it
    lives some goroutine can take a step, and every run is finite, so that a
    run ends with main returning or with a fatal output error; and when the
    run has got to its final [Println] (in particular when it ended with
    main returning), the trace of the writers is the header-only one: the
    CSV file holds the header record alone, the Markdown file the header
    line and the separator line. *)
Theorem C5_zero_pages s :
  rev = Current -> pageMax = 0 -> reachable s ->
  tasks s = [] /\ fetched s = [] /\ sent s = [] /\ allProducts s = [] /\
  status s <> Some ExitPanic /\
  (status s = None -> exists a s', step a s = Some s') /\
  (forall sched, run sched init = Some s -> length sched <= measure init) /\
  (m_pc s = MPrintln -> world s = header_only) /\
  (status s = Some ExitOK -> world s = header_only) /\
  csv_records csvFilename header_only = [csv_header] /\
  file_text markdownFilename header_only
    = (md_line md_header ++ md_line md_separator)%string.
Proof.
  intros Hrev HN Hr.
  destruct (zero_pages_nothing s HN Hr) as (Ht & Hf & Hs & Ha).
  specialize (Ha Hrev).
  destruct (inv_reachable s Hr) as [_ _ O P _]. oi_facts O.
  assert (Hw : m_pc s = MPrintln -> world s = header_only).
  { intros Hm. specialize (Oworld Hrev). unfold output_world in Oworld.
    rewrite Hm, Ha in Oworld.
    destruct (status s) as [[]|]; try contradiction;
      destruct Oworld as (w1 & H1 & H2); eapply writers_header_only; eassumption. }
  repeat split; try assumption.
  - apply current_no_panic_without_task; [assumption..|]. now rewrite Ht.
  - intros Hst. apply current_progress; auto.
  - intros sched Hrun. pose proof (run_length sched init s inv_init Hrun). lia.
  - intros Hok. apply Hw, Ook, Hok.
  - apply csv_records_header_only, Hrev.
  - apply file_text_header_only, Hrev.
Qed.

(** Nothing runs in a process that has ended. *)
Lemma ended_no_step a s : status s <> None -> step a s = None.
Proof. unfold step. destruct (status s); [reflexivity | congruence]. Qed.

(** C8 (an output error is fatal).  In main.go, a reachable state whose
    process ended by [log.Fatalf] with error [err]: no goroutine takes a
    step any more (no retry, no recovery); the fatal line is logged and
    the final [Println] is not; aggregation was over ([wg.Wait()] had
    returned, the counter is zero); and either [writeCSV] returned [err]
    on the aggregated collection and the trace holds events of the CSV
    file only, none of the Markdown file, or [writeCSV] returned [nil]
    and [writeMarkdown] returned [err].  Conversely, an error returned by
    either writer ends the run: at the call of [writeCSV] an error
    returned by it ends the run in that state, and so does, at the call of
    [writeMarkdown], an error returned by [writeMarkdown]: the step of
    [main] logs the fatal line and exits, [main] does not move on, and no
    goroutine takes a step afterwards.  And the run gets to its final
    [Println], and [main] returns, only when both writers have returned
    [nil]. *)
Theorem C8_output_error_fatal s err :
  rev = Current -> reachable s -> status s = Some (ExitFatal err) ->
  (forall a, step a s = None) /\
  In (LogFatal err) (log s) /\
  ~ In LogPrintln (log s) /\
  wg s = 0 /\
  ((m_pc s = MWriteCSV /\
    writeCSV io_fail csvFilename (allProducts s) [] = (Return (Some err), world s) /\
    Forall (fun ev => event_file ev = csvFilename) (world s) /\
    ~ (exists ev, In ev (world s) /\ event_file ev = markdownFilename))
   \/
   (m_pc s = MWriteMD /\
    exists w1,
      writeCSV io_fail csvFilename (allProducts s) [] = (Return None, w1) /\
      writeMarkdown io_fail markdownFilename (allProducts s) w1
        = (Return (Some err), world s))) /\
  (forall s0 err0 w,
      status s0 = None -> m_pc s0 = MWriteCSV ->
      writeCSV io_fail csvFilename (allProducts s0) (world s0)
        = (Return (Some err0), w) ->
      exists s1, step AMain s0 = Some s1 /\
                 status s1 = Some (ExitFatal err0) /\
                 m_pc s1 = MWriteCSV /\ world s1 = w) /\
  (forall s0 err0 w,
      status s0 = None -> m_pc s0 = MWriteMD ->
      writeMarkdown io_fail markdownFilename (allProducts s0) (world s0)
        = (Return (Some err0), w) ->
      exists s1, step AMain s0 = Some s1 /\
                 status s1 = Some (ExitFatal err0) /\
                 m_pc s1 = MWriteMD /\ world s1 = w /\
                 log s1 = log s0 ++ [LogFatal err0] /\
                 (forall a, step a s1 = None)) /\
  (forall s0,
      reachable s0 -> m_pc s0 = MPrintln \/ status s0 = Some ExitOK ->
      m_pc s0 = MPrintln /\
      exists w1,
        writeCSV io_fail csvFilename (allProducts s0) [] = (Return None, w1) /\
        writeMarkdown io_fail markdownFilename (allProducts s0) w1
          = (Return None, world s0)).
Proof.
  intros Hrev Hr Hst.
  destruct (inv_reachable s Hr) as [I _ O _ _]. oi_facts O.
  specialize (Oworld Hrev). unfold output_world in Oworld. rewrite Hst in Oworld.
  split; [intros a; apply ended_no_step; congruence|].
  split; [apply Ofatal, Hst|].
  split; [intros Hp; apply Oprintln in Hp; congruence|].
  assert (Hm : m_pc s = MWriteCSV \/ m_pc s = MWriteMD)
    by (destruct (m_pc s); try contradiction; auto).
  split; [apply (ci_past _ I); destruct Hm as [-> | ->]; reflexivity|].
  split; [|split; [|split]].
  - destruct Hm as [Hm|Hm]; rewrite Hm in Oworld; [left|right; auto].
    split; [exact Hm|]. split; [exact Oworld|].
    destruct (writeCSV_events _ _ _ _ _ Oworld) as (evs & Hevs & Hall).
    simpl in Hevs. subst evs. split; [exact Hall|].
    intros (ev & Hin & Hfile).
    rewrite Forall_forall in Hall. apply list_elem_of_In in Hin.
    specialize (Hall ev Hin).
    apply (filenames_differ Hrev). congruence.
  - intros s0 err0 w Hst0 Hm0 Hw. unfold step, step_main.
    rewrite Hst0, Hm0, Hw. eexists. repeat split; try reflexivity. exact Hm0.
  - intros s0 err0 w Hst0 Hm0 Hw.
    exists (fatal err0 (set_world w s0)).
    split; [unfold step, step_main; now rewrite Hst0, Hm0, Hw|].
    split; [reflexivity|]. split; [exact Hm0|]. split; [reflexivity|].
    split; [reflexivity|].
    intros a. apply ended_no_step. discriminate.
  - intros s0 Hr0 Hend.
    destruct (inv_reachable s0 Hr0) as [_ _ O0 _ _].
    pose proof (oi_world _ O0 Hrev) as Ow0. unfold output_world in Ow0.
    assert (Hm0 : m_pc s0 = MPrintln).
    { destruct Hend as [Hm0|Hok]; [exact Hm0 | apply (oi_ok _ O0 Hok)]. }
    split; [exact Hm0|]. rewrite Hm0 in Ow0.
    destruct (status s0) as [[|err0|]|]; try contradiction; exact Ow0.
Qed.

(** ** The CSV writer when no call fails *)

Lemma writeCSV_rows_ok filename products :
  (forall k, io_fail k = false) ->
  forall w,
    writeCSV_rows io_fail filename products w
    = (Return None,
       w ++ map (fun product => EvCsvWrite filename (csv_record product) true) products).
Proof.
  intros Hio. induction products as [|product rest IH]; intros w; simpl.
  - now rewrite app_nil_r.
  - rewrite formatCategories_spec. unfold csv_Write. rewrite Hio.
    rewrite IH, <- app_assoc. reflexivity.
Qed.

Lemma csv_records_app name w evs :
  csv_records name (w ++ evs)
  = fold_left (fun acc ev =>
      match ev with
      | EvCreate n true => if String.eqb n name then [] else acc
      | EvCsvWrite n record true => if String.eqb n name then acc ++ [record] else acc
      | _ => acc
      end) evs (csv_records name w).
Proof. unfold csv_records. apply fold_left_app. Qed.

Lemma csv_records_writes name records : forall w,
  csv_records name (w ++ map (fun record => EvCsvWrite name record true) records)
  = csv_records name w ++ records.
Proof.
  induction records as [|record rest IH]; intros w; simpl.
  - now rewrite !app_nil_r.
  - change (w ++ EvCsvWrite name record true :: map (fun r => EvCsvWrite name r true) rest)
      with (w ++ [EvCsvWrite name record true] ++ map (fun r => EvCsvWrite name r true) rest).
    rewrite app_assoc, IH, csv_records_app. simpl.
    rewrite String.eqb_refl. now rewrite <- app_assoc.
Qed.

(** C9 (the CSV rows).  For every collection, when no call to the
    operating system fails, [writeCSV] creates the file, writes the header
    record and then one record per product in the order of the
    collection, flushes and closes, and returns [nil]; the file then holds
    exactly the header followed by these records; every record has 9
    columns; and the record of a product is, in this order, its title,
    publication date, URL, type, language, flattened categories (which is
    what [formatCategories] returns), cover image, publishers as text and
    authors as text. *)
Theorem C9_csv_rows filename products w :
  (forall k, io_fail k = false) ->
  writeCSV io_fail filename products w
  = (Return None,
     w ++ [EvCreate filename true]
       ++ map (fun record => EvCsvWrite filename record true)
              (csv_header :: map csv_record products)
       ++ [EvCsvFlush filename; EvClose filename]) /\
  csv_records filename (snd (writeCSV io_fail filename products w))
  = csv_header :: map csv_record products /\
  Forall (fun record => length record = 9) (csv_header :: map csv_record products) /\
  (forall product,
      formatCategories (Categories product) = Return (flattened (Categories product)) /\
      csv_record product
      = [ Title product;
          PublicationDate (CustomAttributes product);
          URL product;
          Type_ product;
          Language product;
          flattened (Categories product);
          CoverImage product;
          sprint_v (Publishers (CustomAttributes product));
          sprint_v (Authors product) ]).
Proof.
  intros Hio.
  assert (Hw : writeCSV io_fail filename products w
    = (Return None,
       w ++ [EvCreate filename true]
         ++ map (fun record => EvCsvWrite filename record true)
                (csv_header :: map csv_record products)
         ++ [EvCsvFlush filename; EvClose filename])).
  { unfold writeCSV, os_Create, csv_Write. rewrite !Hio.
    rewrite writeCSV_rows_ok by exact Hio.
    simpl. rewrite List.map_map, <- !app_assoc. reflexivity. }
  split; [exact Hw|]. split; [|split].
  - rewrite Hw. cbn [snd].
    rewrite (app_assoc w), (app_assoc (w ++ _)).
    rewrite csv_records_app. cbn [fold_left].
    rewrite csv_records_writes, csv_records_app. cbn [fold_left].
    rewrite String.eqb_refl. reflexivity.
  - constructor; [reflexivity|]. apply Forall_forall. intros record Hin.
    apply list_elem_of_In, in_map_iff in Hin. destruct Hin as (product & <- & _).
    reflexivity.
  - intros product. split; [apply formatCategories_spec | reflexivity].
Qed.

(** C4 (category flattening, the two examples of the specification). *)
Theorem C4_formatCategories_examples :
  formatCategories [["Programming"; "Go"]; ["Web"]] = Return "Programming > Web" /\
  formatCategories [] = Return "".
Proof. split; reflexivity. Qed.

Lemma first_labels_app l1 l2 :
  first_labels (l1 ++ l2) = first_labels l1 ++ first_labels l2.
Proof. unfold first_labels. apply flat_map_app. Qed.

(** C10 (formatCategories is total).  For every forest the function
    returns (it does not panic) and returns the first labels joined by the
    separator; a path with no label contributes nothing, wherever it
    stands; and the string the loop has accumulated is empty or ends in
    the separator, so that it is empty or at least 3 long and the slice
    [formatted[:len(formatted)-3]] is within bounds. *)
Theorem C10_formatCategories_total categories :
  formatCategories categories = Return (flattened categories) /\
  (forall before after,
      formatCategories (before ++ [] :: after) = formatCategories (before ++ after)) /\
  (exists formatted,
      formatCategories_loop categories "" = Return formatted /\
      (formatted = "" \/ exists front, formatted = (front ++ " > ")%string) /\
      (String.length formatted = 0 \/ 3 <= String.length formatted) /\
      (String.length formatted = 0 \/
       slice_to formatted (Z.of_nat (String.length formatted) - 3)
       = Return (flattened categories))).
Proof.
  split; [apply formatCategories_spec|]. split.
  - intros before after. rewrite !formatCategories_spec. unfold flattened.
    rewrite !first_labels_app. reflexivity.
  - exists (labels_sep (first_labels categories)).
    split; [apply formatCategories_loop_spec|].
    unfold flattened.
    destruct (first_labels categories) as [|c0 rest] eqn:Hl.
    + simpl. auto.
    + rewrite labels_sep_concat by discriminate.
      split; [right; eauto|].
      rewrite string_length_app. simpl String.length.
      split; [right; lia|]. right.
      rewrite <- (string_length_app _ " > "). apply slice_to_trim.
Qed.

(** ** What main.go aggregates when no send meets the closed channel *)

Lemma batches_of_exited l :
  (forall t, In t l -> t_pc t = TExit) ->
  concat (map batch_of (pages_where has_sent l))
  = concat (map batch_of (map t_page l)).
Proof.
  induction l as [|t l IH]; simpl; intros Hall; [reflexivity|].
  assert (Ht : t_pc t = TExit) by (apply Hall; left; reflexivity).
  assert (IH' := IH (fun u Hu => Hall u (or_intror Hu))).
  assert (Hb : fetchData (t_page t) = None -> batch_of (t_page t) = [])
    by (unfold batch_of; now intros ->).
  assert (Hs : has_sent t
               = match fetchData (t_page t) with Some _ => true | None => false end)
    by (unfold has_sent; now rewrite Ht).
  rewrite Hs. destruct (fetchData (t_page t)) eqn:Hf; simpl.
  - now rewrite IH'.
  - now rewrite IH', Hb.
Qed.

Lemma concat_map_perm (l l' : list nat) :
  Permutation l l' ->
  Permutation (concat (map batch_of l)) (concat (map batch_of l')).
Proof.
  intros Hp. rewrite <- !flat_map_concat_map. now apply Permutation_flat_map.
Qed.

(** In main.go, once [wg.Wait()] has returned and no task has panicked,
    [allProducts] holds the batches of all pages, each once (the batch of
    a failing page being empty), in the order of arrival. *)
Lemma current_aggregation_complete s :
  rev = Current -> reachable s ->
  m_past_wait (m_pc s) = true -> count panicking (tasks s) = 0 ->
  allProducts s = concat (map batch_of (sent s)) /\
  Permutation (allProducts s) (concat (map batch_of (seq 0 pageMax))).
Proof.
  intros Hrev Hr Hpast Hnp.
  destruct (past_wait_all_over s Hr Hpast) as (Hpages & Hcount & Hc).
  specialize (Hc Hrev).
  destruct (inv_reachable s Hr) as [I D _ _ _].
  destruct (ci_drained _ I) as [_ Hbuf]; [rewrite Hc; reflexivity|].
  pose proof (di_agg _ D Hrev) as Hagg. rewrite Hbuf in Hagg. simpl in Hagg.
  rewrite app_nil_r in Hagg. split; [exact Hagg|].
  rewrite Hagg, <- Hpages, <- batches_of_exited.
  - apply concat_map_perm, (di_sent _ D).
  - intros t Ht. destruct (count_counted_zero _ Hcount t Ht) as [Hx|Hx]; [exact Hx|].
    apply list_elem_of_In, list_elem_of_lookup in Ht. destruct Ht as [g Hg].
    pose proof (count_zero_lookup panicking _ g t Hnp Hg) as Hp.
    rewrite Hx in Hp. discriminate Hp.
Qed.

(** ** The earlier revision closes the channel after the tasks *)

Lemma earlier_closed_facts s :
  rev = Earlier -> reachable s -> chan_closed s = true ->
  map t_page (tasks s) = seq 0 pageMax /\
  (forall t, In t (tasks s) -> t_pc t = TExit) /\
  Permutation (concat (map batch_of (sent s))) (concat (map batch_of (seq 0 pageMax))).
Proof.
  intros Hrev Hr Hcl. destruct (inv_reachable s Hr) as [I D _ _ _].
  pose proof (ci_closed _ I) as Iclosed. unfold closed_by in Iclosed.
  rewrite Hrev, Hcl in Iclosed.
  assert (Hpast : m_past_wait (m_pc s) = true)
    by (destruct (m_pc s); try discriminate Iclosed; reflexivity).
  destruct (past_wait_all_over s Hr Hpast) as (Hpages & Hcount & _).
  pose proof (ci_earlier _ I Hrev) as Hnp.
  assert (Hall : forall t, In t (tasks s) -> t_pc t = TExit).
  { intros t Ht. destruct (count_counted_zero _ Hcount t Ht) as [Hx|Hx]; [exact Hx|].
    apply list_elem_of_In, list_elem_of_lookup in Ht. destruct Ht as [g Hg].
    pose proof (count_zero_lookup panicking _ g t Hnp Hg) as Hp.
    rewrite Hx in Hp. discriminate Hp. }
  split; [exact Hpages|]. split; [exact Hall|].
  rewrite <- Hpages, <- batches_of_exited by exact Hall.
  apply concat_map_perm, (di_sent _ D).
Qed.

(** There [main] closes [productsChan] after [wg.Wait()]: whenever the
    channel is closed every page has its task, every task has returned,
    none is at its send, and the batch of every page that succeeded has
    entered the channel. *)
Lemma earlier_close_after_tasks s :
  rev = Earlier -> reachable s -> chan_closed s = true ->
  map t_page (tasks s) = seq 0 pageMax /\
  (forall t, In t (tasks s) -> t_pc t = TExit) /\
  (forall g t products, tasks s !! g = Some t -> t_pc t <> TSend products) /\
  Permutation (concat (map batch_of (sent s))) (concat (map batch_of (seq 0 pageMax))).
Proof.
  intros Hrev Hr Hcl.
  destruct (earlier_closed_facts s Hrev Hr Hcl) as (Hpages & Hall & Hperm).
  split; [exact Hpages|]. split; [exact Hall|]. split; [|exact Hperm].
  intros g t products Hg Hpc.
  assert (Hin : In t (tasks s))
    by (apply list_elem_of_In, list_elem_of_lookup; eauto).
  rewrite (Hall t Hin) in Hpc. discriminate Hpc.
Qed.


(* =================================================================== *)
(** * Part V: further properties of the code                            *)
(* =================================================================== *)

(** ** The writers under an arbitrary environment *)


Lemma csv_records_tail name w evs :
  Forall (fun ev => match ev with
                    | EvCreate n true | EvCsvWrite n _ true => n <> name
                    | _ => True
                    end) evs ->
  csv_records name (w ++ evs) = csv_records name w.
Proof.
  rewrite csv_records_app. generalize (csv_records name w).
  induction evs as [|ev evs IH]; intros acc Hall; [reflexivity|].
  apply Forall_cons in Hall. destruct Hall as [Hev Hall]. simpl.
  rewrite IH by exact Hall.
  destruct ev as [n [] | n record [] | n | n text ok | n]; try reflexivity;
    (destruct (String.eqb_spec n name); [contradiction | reflexivity]).
Qed.




Lemma file_text_app name w evs :
  file_text name (w ++ evs)
  = fold_left (fun acc ev =>
      match ev with
      | EvCreate n true => if String.eqb n name then "" else acc
      | EvWriteString n text true =>
          if String.eqb n name then (acc ++ text)%string else acc
      | _ => acc
      end) evs (file_text name w).
Proof. unfold file_text. apply fold_left_app. Qed.

Lemma file_text_tail name w evs :
  Forall (fun ev => match ev with
                    | EvCreate n true | EvWriteString n _ true => n <> name
                    | _ => True
                    end) evs ->
  file_text name (w ++ evs) = file_text name w.
Proof.
  rewrite file_text_app. generalize (file_text name w).
  induction evs as [|ev evs IH]; intros acc Hall; [reflexivity|].
  apply Forall_cons in Hall. destruct Hall as [Hev Hall]. simpl.
  rewrite IH by exact Hall.
  destruct ev as [n [] | n record ok | n | n text [] | n]; try reflexivity;
    (destruct (String.eqb_spec n name); [contradiction | reflexivity]).
Qed.

Lemma file_text_writes name lines : forall w,
  file_text name (w ++ map (fun text => EvWriteString name text true) lines)
  = (file_text name w ++ text_of lines)%string.
Proof.
  induction lines as [|line rest IH]; intros w; simpl.
  - now rewrite app_nil_r, string_app_nil_r.
  - change (w ++ EvWriteString name line true
              :: map (fun text => EvWriteString name text true) rest)
      with (w ++ [EvWriteString name line true]
              ++ map (fun text => EvWriteString name text true) rest).
    rewrite app_assoc, IH, file_text_app. simpl.
    rewrite String.eqb_refl. now rewrite string_app_assoc.
Qed.

Lemma file_text_created name w lines evs :
  Forall (fun ev => match ev with
                    | EvCreate n true | EvWriteString n _ true => n <> name
                    | _ => True
                    end) evs ->
  file_text name
    (w ++ [EvCreate name true]
       ++ map (fun text => EvWriteString name text true) lines ++ evs)
  = text_of lines.
Proof.
  intros Hall. rewrite !app_assoc. rewrite file_text_tail by exact Hall.
  rewrite file_text_writes, file_text_app. cbn [fold_left].
  now rewrite String.eqb_refl.
Qed.

Lemma writeMarkdown_rows_cases filename products : forall w,
  exists n,
    n <= length products /\
    writeMarkdown_rows io_fail filename products w
    = (Return (match drop n products with
               | [] => None
               | _ :: _ => Some (ErrWriteString filename)
               end),
       w ++ map (fun text => EvWriteString filename text true)
                (map md_record (take n products))
         ++ match drop n products with
            | [] => []
            | product :: _ => [EvWriteString filename (md_record product) false]
            end).
Proof.
  induction products as [|product rest IH]; intros w.
  - exists 0. split; [reflexivity|]. simpl. now rewrite app_nil_r.
  - simpl. rewrite formatCategories_spec. unfold file_WriteString.
    destruct (io_fail (length w)).
    + exists 0. split; [lia|]. reflexivity.
    + destruct (IH (w ++ [EvWriteString filename
                            (md_item product (flattened (Categories product))) true]))
        as (n & Hn & ->).
      exists (S n). split; [lia|]. simpl. rewrite <- app_assoc. reflexivity.
Qed.

Lemma writeMarkdown_cases filename products w :
  (io_fail (length w) = true /\
   writeMarkdown io_fail filename products w
   = (Return (Some (ErrCreate filename)), w ++ [EvCreate filename false]))
  \/
  (io_fail (length w) = false /\
   exists n,
     n <= length (md_lines products) /\
     writeMarkdown io_fail filename products w
     = (Return (match drop n (md_lines products) with
                | [] => None
                | _ :: _ => Some (ErrWriteString filename)
                end),
        w ++ [EvCreate filename true]
          ++ map (fun text => EvWriteString filename text true)
                 (take n (md_lines products))
          ++ match drop n (md_lines products) with
             | [] => []
             | text :: _ => [EvWriteString filename text false]
             end
          ++ [EvClose filename])).
Proof.
  unfold writeMarkdown, os_Create.
  destruct (io_fail (length w)) eqn:Hc; [left; auto | right].
  split; [reflexivity|]. unfold file_WriteString.
  destruct (io_fail (length (w ++ [EvCreate filename true]))).
  { exists 0. split; [lia|]. simpl. rewrite <- !app_assoc. reflexivity. }
  destruct (io_fail (length ((w ++ [EvCreate filename true])
                               ++ [EvWriteString filename (md_line md_header) true]))).
  { exists 1. split; [simpl; lia|]. simpl. rewrite <- !app_assoc. reflexivity. }
  destruct (writeMarkdown_rows_cases filename products
              (((w ++ [EvCreate filename true])
                  ++ [EvWriteString filename (md_line md_header) true])
                 ++ [EvWriteString filename (md_line md_separator) true]))
    as (n & Hn & ->).
  exists (S (S n)). unfold md_lines. split; [simpl; rewrite length_map; lia|].
  cbn [take drop firstn skipn]. rewrite firstn_map, skipn_map.
  destruct (drop n products) as [|product rest]; simpl;
    rewrite <- !app_assoc; reflexivity.
Qed.

(** [writeMarkdown] under an arbitrary environment.  It returns and does
    not panic.  When [os.Create] fails it returns that error and has done
    nothing else.  Otherwise some number [n] of lines went through: the
    header line, the separator line, then the lines of the products in the
    order of the collection; the call returns [nil] when these are all of
    them and the error of the next [WriteString] when not; the deferred
    [Close] ran after the last [WriteString]; and the file holds exactly
    these [n] lines.  The first two lines are the table head of a
    three-column Markdown table. *)
Theorem writeMarkdown_outcome filename products w :
  ((writeMarkdown io_fail filename products w
    = (Return (Some (ErrCreate filename)), w ++ [EvCreate filename false]))
   \/
   (exists n,
      n <= length (md_lines products) /\
      writeMarkdown io_fail filename products w
      = (Return (match drop n (md_lines products) with
                 | [] => None
                 | _ :: _ => Some (ErrWriteString filename)
                 end),
         w ++ [EvCreate filename true]
           ++ map (fun text => EvWriteString filename text true)
                  (take n (md_lines products))
           ++ match drop n (md_lines products) with
              | [] => []
              | text :: _ => [EvWriteString filename text false]
              end
           ++ [EvClose filename]) /\
      file_text filename (snd (writeMarkdown io_fail filename products w))
      = text_of (take n (md_lines products)))) /\
  take 2 (md_lines products)
  = [ ("| Title | Publication Date | Categories |" ++ nl)%string;
      ("| --- | --- | --- |" ++ nl)%string ].
Proof.
  split; [|reflexivity].
  destruct (writeMarkdown_cases filename products w) as [[_ H]|(_ & n & Hn & H)];
    [left; exact H | right].
  exists n. split; [exact Hn|]. split; [exact H|].
  rewrite H. cbn [snd]. apply file_text_created.
  destruct (drop n (md_lines products)); repeat constructor.
Qed.

Lemma writeMarkdown_rows_events filename products : forall w r w',
  writeMarkdown_rows io_fail filename products w = (r, w') ->
  exists evs, w' = w ++ evs /\ Forall (fun ev => event_file ev = filename) evs.
Proof.
  induction products as [|product rest IH]; simpl; intros w r w' Hw.
  - injection Hw as <- <-. exists []. split; [now rewrite app_nil_r | constructor].
  - rewrite formatCategories_spec in Hw. unfold file_WriteString in Hw.
    destruct (io_fail (length w)).
    + injection Hw as <- <-. eexists. split; [reflexivity | repeat constructor].
    + apply IH in Hw. destruct Hw as (evs & -> & Hevs).
      eexists. rewrite <- app_assoc. split; [reflexivity|].
      constructor; [reflexivity | exact Hevs].
Qed.

Lemma writeMarkdown_events filename products w r w' :
  writeMarkdown io_fail filename products w = (r, w') ->
  exists evs, w' = w ++ evs /\ Forall (fun ev => event_file ev = filename) evs.
Proof.
  unfold writeMarkdown, os_Create, file_WriteString. intros Hw.
  destruct (io_fail (length w)).
  { injection Hw as <- <-. eexists. split; [reflexivity | repeat constructor]. }
  destruct (io_fail (length (w ++ [EvCreate filename true]))).
  { injection Hw as <- <-. eexists. rewrite <- !app_assoc. split; [reflexivity|].
    repeat constructor. }
  destruct (io_fail (length ((w ++ [EvCreate filename true]) ++ _))).
  { injection Hw as <- <-. eexists. rewrite <- !app_assoc. split; [reflexivity|].
    repeat constructor. }
  destruct (writeMarkdown_rows _ _ _ _) as [r2 w2] eqn:Hrows.
  injection Hw as <- <-.
  apply writeMarkdown_rows_events in Hrows. destruct Hrows as (evs & -> & Hevs).
  eexists. rewrite <- !app_assoc. split; [reflexivity|].
  repeat (first [apply Forall_app; split | apply Forall_cons; split
                | apply Forall_nil ]); auto.
Qed.

Lemma other_file_events filename name evs :
  name <> filename ->
  Forall (fun ev => event_file ev = filename) evs ->
  Forall (fun ev => match ev with
                    | EvCreate n true | EvCsvWrite n _ true => n <> name
                    | _ => True
                    end) evs /\
  Forall (fun ev => match ev with
                    | EvCreate n true | EvWriteString n _ true => n <> name
                    | _ => True
                    end) evs.
Proof.
  intros Hne Hall. split; (eapply Forall_impl; [exact Hall|]);
    intros [n [] | n record [] | n | n text [] | n]; simpl; intros ->; auto.
Qed.

(** A writer touches the file it is given and no other: every call it
    makes is on [filename], and what any other file holds, as CSV records
    or as text, is the same after the call as before, whatever the
    environment does and whether the writer returns [nil] or an error. *)
Theorem writers_touch_only_their_file filename name products w :
  name <> filename ->
  (exists evs, snd (writeCSV io_fail filename products w) = w ++ evs /\
               Forall (fun ev => event_file ev = filename) evs) /\
  (exists evs, snd (writeMarkdown io_fail filename products w) = w ++ evs /\
               Forall (fun ev => event_file ev = filename) evs) /\
  csv_records name (snd (writeCSV io_fail filename products w)) = csv_records name w /\
  file_text name (snd (writeCSV io_fail filename products w)) = file_text name w /\
  csv_records name (snd (writeMarkdown io_fail filename products w)) = csv_records name w /\
  file_text name (snd (writeMarkdown io_fail filename products w)) = file_text name w.
Proof.
  intros Hne.
  destruct (writeCSV io_fail filename products w) as [r1 w1] eqn:H1.
  destruct (writeMarkdown io_fail filename products w) as [r2 w2] eqn:H2.
  apply writeCSV_events in H1. apply writeMarkdown_events in H2.
  destruct H1 as (evs1 & -> & Hall1). destruct H2 as (evs2 & -> & Hall2).
  cbn [snd].
  destruct (other_file_events filename name evs1 Hne Hall1) as [Hc1 Ht1].
  destruct (other_file_events filename name evs2 Hne Hall2) as [Hc2 Ht2].
  split; [eauto|]. split; [eauto|].
  rewrite !csv_records_tail, !file_text_tail by assumption.
  repeat split.
Qed.

(** ** The earlier revision does not panic *)

Lemma earlier_safe_init : earlier_safe init.
Proof. intros _. simpl. repeat split; discriminate. Qed.

Ltac fatal_err :=
  unfold os_Create, csv_Write in *;
  repeat match goal with
  | H : (if ?b then _ else _) = _ |- _ => destruct b
  | H : (_, _) = (_, _) |- _ => injection H as ? ?; subst
  | H : Some _ = Some _ |- _ => injection H as ?; subst
  | H : ExitFatal _ = ExitFatal _ |- _ => injection H as ?; subst
  end;
  try discriminate; auto.

Lemma earlier_safe_step a s s' :
  control_inv s -> earlier_safe s -> step a s = Some s' -> earlier_safe s'.
Proof.
  intros I E Hs Hrev. destruct (E Hrev) as (Hc & Hp & Hx & _).
  unfold step in Hs. destruct (status s) eqn:Hst; [discriminate|].
  pose proof (ci_rev _ I) as Irev. pose proof (ci_closed _ I) as Iclosed.
  unfold rev_pcs, closed_by in *. rewrite Hrev in *.
  assert (Hm : c_pc s <> CExit -> m_pc s <> MPrintln) by tauto.
  destruct a as [| | |g].
  - unfold step_main in Hs. rewrite Hrev in Hs.
    destruct (m_pc s) eqn:Hmp; break_step Hs; proj_simpl;
      try (rewrite ?andb_false_r in Irev; discriminate);
      try discriminate;
      (split; [|split; [|split; [split|]]]);
      try tauto; try congruence; try discriminate;
      try (intros Hcx; apply Hx in Hcx; discriminate Hcx).
  - unfold step_dispatcher in Hs. rewrite Hrev in Hs.
    destruct (d_pc s) eqn:Hd; break_step Hs; proj_simpl;
      try (rewrite ?andb_false_r in Irev; discriminate);
      try discriminate;
      (split; [|split; [|split]]); try tauto; try congruence.
  - unfold step_consumer in Hs. rewrite Hrev in Hs.
    destruct (c_pc s) as [| | | |[|product rest]| | | |] eqn:Hcp;
      try rewrite formatCategories_spec in Hs;
      break_step Hs; proj_simpl; try congruence;
      try (rewrite ?andb_false_r in Irev; discriminate);
      (split; [|split; [|split; [split|]]]);
      try discriminate; try congruence;
      try (intros Hq; exfalso; revert Hq; apply Hm; discriminate);
      intros err Herr; fatal_err.
  - unfold step_task in Hs.
    destruct (tasks s !! g) as [t|] eqn:Hg; [|discriminate].
    pose proof (count_zero_lookup panicking _ g t (ci_earlier _ I Hrev) Hg) as Hnp.
    destruct (t_pc t) eqn:Hpc; break_step Hs; proj_simpl;
      try discriminate Hnp;
      (split; [|split; [|split]]); try tauto; try congruence.
Qed.

Lemma earlier_safe_run sched : forall s s',
  inv s -> earlier_safe s -> run sched s = Some s' -> earlier_safe s'.
Proof.
  induction sched as [|a sched IH]; simpl; intros s s' I E Hr.
  - injection Hr as <-. exact E.
  - destruct (step a s) as [s1|] eqn:Hs; [|discriminate].
    eapply IH; [eapply inv_step; eassumption | | exact Hr].
    eapply earlier_safe_step; [apply (inv_control _ I) | exact E | exact Hs].
Qed.

Lemma earlier_safe_reachable s : reachable s -> earlier_safe s.
Proof.
  intros [sched Hr]. eapply earlier_safe_run; [apply inv_init | apply earlier_safe_init | exact Hr].
Qed.

(** The process of the earlier revision ends by [main] returning or by the
    [log.Fatalf] of the goroutine that runs [writeCSV]; it never panics:
    no [wg.Done()] finds the counter at zero, no [close] finds the channel
    closed, no send does, and [formatCategories] returns.  The only errors
    [writeCSV] can meet there are those of [os.Create] and of a [Write]. *)
Theorem earlier_never_panics s :
  rev = Earlier -> reachable s ->
  status s <> Some ExitPanic /\
  d_pc s <> DDie /\ c_pc s <> CDie /\
  (forall g t, tasks s !! g = Some t -> panicking (t_pc t) = false) /\
  (forall err, status s = Some (ExitFatal err) ->
     (err = ErrCreate csvFilename \/ err = ErrCsvWrite csvFilename) /\
     In (LogFatal err) (log s) /\ ~ In LogPrintln (log s)) /\
  (status s = Some ExitOK -> c_pc s = CExit /\ chan_closed s = true /\ chan_buf s = []).
Proof.
  intros Hrev Hr. destruct (earlier_safe_reachable s Hr Hrev) as (Hc & Hp & Hx & Hf).
  destruct (inv_reachable s Hr) as [I _ O _ _]. oi_facts O.
  pose proof (ci_rev _ I) as Irev. unfold rev_pcs in Irev.
  split; [exact Hp|]. split; [|split; [exact Hc|split; [|split]]].
  - intros Hd. rewrite Hd in Irev. discriminate Irev.
  - intros g t Hg. apply (count_zero_lookup panicking _ g t (ci_earlier _ I Hrev) Hg).
  - intros err Hst. split; [apply Hf, Hst|]. split; [apply Ofatal, Hst|].
    intros Hpr. apply Oprintln in Hpr. congruence.
  - intros Hok. destruct (Ook Hok) as [Hm _].
    assert (Hcx : c_pc s = CExit) by (apply Hx, Hm).
    split; [exact Hcx|]. apply (ci_drained _ I). now rewrite Hcx.
Qed.

(** ** Neither revision gets stuck *)

Lemma earlier_progress s :
  rev = Earlier -> reachable s -> 1 <= maxConcurrent \/ pageMax = 0 ->
  status s = None ->
  exists a s', step a s = Some s'.
Proof.
  intros Hrev Hr HM Hst.
  destruct (earlier_safe_reachable s Hr Hrev) as (Hcd & _ & Hx & _).
  destruct (inv_reachable s Hr) as [I _ _ _ _].
  pose proof I as I'. ci_facts I'.
  unfold c_wg, rev_pcs, closed_by in *. rewrite Hrev in *.
  assert (Hcons : m_before_c (m_pc s) = false -> c_pc s <> CSendDone ->
                  c_pc s <> CExit ->
                  (chan_buf s <> [] \/ chan_closed s = true) ->
                  exists a s', step a s = Some s').
  { intros Hm Hsd Hce Hready. exists AConsumer. unfold step, step_consumer.
    rewrite Hst, Hrev.
    destruct (c_pc s) as [| | | |[|product rest]| | | |] eqn:Hc;
      try congruence; try (rewrite Hm in Ici; discriminate Ici); eauto.
    - destruct (os_Create _ _ _) as [[?|] ?]; eauto.
    - destruct (csv_Write _ _ _ _) as [[?|] ?]; eauto.
    - destruct (chan_buf s); [|eauto].
      destruct Hready as [Hb|Hcl]; [congruence|]. rewrite Hcl. eauto.
    - rewrite formatCategories_spec.
      destruct (csv_Write _ _ _ _) as [[?|] ?]; eauto.
    - rewrite !andb_false_r in Irev. discriminate Irev. }
  destruct (m_pc s) eqn:Hm;
    try (exists AMain; unfold step, step_main; rewrite Hst, Hm; solve [eauto]);
    try (rewrite ?andb_false_r in Irev; discriminate Irev).
  - (* wg.Wait() *)
    destruct (wg s) as [|k] eqn:Hwg;
      [exists AMain; unfold step, step_main; rewrite Hst, Hm, Hwg; eauto|].
    destruct (d_pc s) as [|page| | | |[]| |] eqn:Hd; try discriminate.
    + destruct (page <? pageMax)%nat eqn:Hp.
      * apply Nat.ltb_lt in Hp.
        eapply dispatch_progress; try eassumption; [lia | now rewrite Hd].
      * exists ADispatcher. unfold step, step_dispatcher. rewrite Hst, Hd, Hp. eauto.
    + exists ADispatcher. unfold step, step_dispatcher. rewrite Hst, Hd. eauto.
    + exists ADispatcher. unfold step, step_dispatcher. rewrite Hst, Hd. eauto.
    + rewrite !andb_false_r in Irev. discriminate Irev.
    + exists ADispatcher. unfold step, step_dispatcher. rewrite Hst, Hd, Hwg. eauto.
    + simpl in Iwg, Isem, Iclosed.
      destruct (count_pos_lookup counted (tasks s)) as (g & t & Hg & Ht); [lia|].
      pose proof (count_lookup holds_token _ _ _ Hg) as Hh.
      destruct (t_pc t) as [| |products|pk|pk| |] eqn:Hpc; try discriminate Ht;
        simpl in Hh.
      * exists (ATask g). unfold step, step_task. rewrite Hst, Hg, Hpc. eauto.
      * exists (ATask g). unfold step, step_task. rewrite Hst, Hg, Hpc.
        destruct (fetchData (t_page t)); eauto.
      * destruct (length (chan_buf s) <? maxConcurrent)%nat eqn:Hb;
          [exists (ATask g); unfold step, step_task;
           rewrite Hst, Hg, Hpc, Iclosed, Hb; eauto|].
        apply Nat.ltb_ge in Hb. specialize (Hh eq_refl).
        apply Hcons; try reflexivity.
        -- intros Hsd. destruct Idrain as [Hcl _]; [now rewrite Hsd | congruence].
        -- intros Hce. apply Hx in Hce. discriminate Hce.
        -- left. intros Hbuf. rewrite Hbuf in Hb. simpl in Hb. lia.
      * specialize (Hh eq_refl).
        exists (ATask g). unfold step, step_task. rewrite Hst, Hg, Hpc.
        destruct (sem s); [lia|eauto].
      * exists (ATask g). unfold step, step_task. rewrite Hst, Hg, Hpc, Hwg. eauto.
  - (* close(productsChan) *)
    exists AMain. unfold step, step_main. rewrite Hst, Hm.
    destruct (chan_closed s); eauto.
  - (* <-done *)
    destruct (c_pc s) eqn:Hc;
      try (exists AMain; unfold step, step_main; rewrite Hst, Hm, Hc; solve [eauto]);
      try (apply Hcons; [reflexivity | discriminate | discriminate
                        | right; exact Iclosed]).
    destruct Hx as [Hx _]. specialize (Hx eq_refl). discriminate Hx.
Qed.

Lemma progress s :
  reachable s -> 1 <= maxConcurrent \/ pageMax = 0 -> status s = None ->
  exists a s', step a s = Some s'.
Proof.
  destruct rev eqn:Hrev; [now apply current_progress | now apply earlier_progress].
Qed.

Lemma run_to_end : forall n s,
  measure s <= n -> reachable s -> 1 <= maxConcurrent \/ pageMax = 0 ->
  exists sched s', run sched s = Some s' /\ status s' <> None.
Proof.
  induction n as [|n IH]; intros s Hn Hr HM.
  - exists [], s. split; [reflexivity|].
    unfold measure in Hn. destruct (status s); [discriminate | lia].
  - destruct (status s) as [e|] eqn:Hst.
    + exists [], s. split; [reflexivity | congruence].
    + destruct (progress s Hr HM Hst) as (a & s1 & Hs).
      pose proof (step_decreases a s s1 (inv_control _ (inv_reachable s Hr)) Hs) as Hlt.
      destruct (IH s1) as (sched & s' & Hrun & Hend);
        [lia | eapply reachable_step; eassumption | exact HM |].
      exists (a :: sched), s'. simpl. rewrite Hs. split; assumption.
Qed.

Lemma loop_weight_sum n : forall page,
  loop_weight page n
  = 4 + 11 * n + length (concat (map batch_of (seq page n))).
Proof.
  induction n as [|n IH]; intros page; simpl; [reflexivity|].
  rewrite IH, length_app. unfold batch_cost. lia.
Qed.

(** Neither revision gets stuck, and both end.  With a ceiling of at least
    one (or with no page to fetch), in every reachable state of a live
    process some goroutine can take a step, and the state can be run to an
    end of the process; and every run, under every scheduling, has at most
    [22 + 11 * pageMax] steps plus one for every product that the remote
    end serves. *)
Theorem every_run_ends s :
  1 <= maxConcurrent \/ pageMax = 0 ->
  reachable s ->
  (status s = None -> exists a s', step a s = Some s') /\
  (exists sched s', run sched s = Some s' /\ status s' <> None) /\
  (forall sched, run sched init = Some s ->
     length sched <= 22 + 11 * pageMax
                     + length (concat (map batch_of (seq 0 pageMax)))).
Proof.
  intros HM Hr. split; [|split].
  - intros Hst. now apply progress.
  - apply (run_to_end (measure s)); auto.
  - intros sched Hrun.
    pose proof (run_length sched init s inv_init Hrun) as Hlen.
    assert (Hinit : measure init
                    = 22 + 11 * pageMax
                      + length (concat (map batch_of (seq 0 pageMax)))).
    { unfold measure. simpl. rewrite loop_weight_sum. lia. }
    lia.
Qed.

(** ** What main.go leaves in its two files *)







(** main.go touches no file before aggregation is over: in a reachable
    state in which any call to the operating system has been made,
    [wg.Wait()] has returned, every page has its task, every task is over,
    the draining goroutine has returned and the channel is closed and
    empty.  In particular a run that panics while [main] still waits leaves
    no file behind, not even an empty one. *)
Theorem current_writes_after_aggregation s :
  rev = Current -> reachable s -> world s <> [] ->
  m_past_wait (m_pc s) = true /\
  wg s = 0 /\
  map t_page (tasks s) = seq 0 pageMax /\
  count counted (tasks s) = 0 /\
  d_pc s = DExit /\ c_pc s = CExit /\
  chan_closed s = true /\ chan_buf s = [].
Proof.
  intros Hrev Hr Hw. destruct (inv_reachable s Hr) as [I _ O _ _]. oi_facts O.
  specialize (Oworld Hrev). unfold output_world in Oworld.
  assert (Hpast : m_past_wait (m_pc s) = true).
  { destruct (m_pc s); try reflexivity;
      destruct (status s) as [[|err|]|]; try contradiction; congruence. }
  destruct (past_wait_all_over s Hr Hpast) as (Hpages & Hcount & Hc).
  specialize (Hc Hrev).
  pose proof (ci_past _ I Hpast) as Hwg.
  destruct (ci_drained _ I) as [Hcl Hbuf]; [now rewrite Hc|].
  repeat split; try assumption.
  pose proof (ci_wg _ I) as Iwg. pose proof (ci_closed _ I) as Iclosed.
  pose proof (ci_rev _ I) as Irev.
  unfold closed_by, rev_pcs in *. rewrite Hrev, Hcl in *. rewrite Hwg in Iwg.
  destruct (d_pc s) as [| | | | |[]| |]; try discriminate; try reflexivity;
    destruct (m_pc s); try discriminate Hpast; simpl in Iwg; lia.
Qed.

(** ** What never goes wrong, and the one thing that does *)

(** In every reachable state of either revision: a goroutine that is at
    its [wg.Done()] finds the counter positive, so the counter never goes
    negative; a goroutine that is at [close(productsChan)] finds the
    channel open, so it is closed once; a task at its [<-sem] finds a
    token; and the goroutine that runs [fetchProducts] never panics. *)
Theorem counter_and_close_are_safe s :
  reachable s ->
  (forall flag, d_pc s = DDone flag -> 1 <= wg s) /\
  (c_pc s = CDone -> 1 <= wg s) /\
  (forall g t flag,
      tasks s !! g = Some t -> t_pc t = TDone flag -> 1 <= wg s) /\
  (d_pc s = DClose -> chan_closed s = false) /\
  (m_pc s = MClose -> chan_closed s = false) /\
  (forall g t flag,
      tasks s !! g = Some t -> t_pc t = TRelease flag -> 1 <= sem s) /\
  d_pc s <> DDone true /\ d_pc s <> DDie.
Proof.
  intros Hr. destruct (inv_reachable s Hr) as [I _ _ _ _].
  pose proof I as I'. ci_facts I'. unfold c_wg, rev_pcs, closed_by in *.
  repeat split.
  - intros pk Hd. rewrite Hd in Iwg.
    destruct (m_pc s); simpl in Iwg; lia.
  - intros Hc. rewrite Hc in *.
    destruct rev;
      [|simpl in Irev; rewrite !andb_false_r in Irev; discriminate Irev].
    destruct (m_pc s); simpl in Iwg; lia.
  - intros g t pk Hg Hpc.
    pose proof (count_lookup counted _ _ _ Hg) as Hc. rewrite Hpc in Hc.
    specialize (Hc eq_refl). lia.
  - intros Hd. rewrite Hd in *.
    destruct rev; [exact Iclosed|].
    simpl in Irev. rewrite !andb_false_r in Irev. discriminate Irev.
  - intros Hm. rewrite Hm in *.
    destruct rev; [|exact Iclosed].
    simpl in Irev. rewrite !andb_false_r in Irev. discriminate Irev.
  - intros g t pk Hg Hpc.
    pose proof (count_lookup holds_token _ _ _ Hg) as Hc. rewrite Hpc in Hc.
    specialize (Hc eq_refl). lia.
  - intros Hd. rewrite Hd in Irev. discriminate Irev.
  - intros Hd. rewrite Hd in Irev. discriminate Irev.
Qed.

Lemma pages_where_In f l page :
  In page (pages_where f l) ->
  exists t, In t l /\ t_page t = page /\ f t = true.
Proof.
  induction l as [|u l IH]; simpl; [intros []|].
  destruct (f u) eqn:Hf.
  - intros [<-|Hin]; [exists u; auto|].
    destruct (IH Hin) as (t & Ht & Hp & Hft). exists t. auto.
  - intros Hin. destruct (IH Hin) as (t & Ht & Hp & Hft). exists t. auto.
Qed.

Lemma In_pages_where f l t :
  In t l -> f t = true -> In (t_page t) (pages_where f l).
Proof.
  induction l as [|u l IH]; simpl; [intros []|].
  intros [->|Hin] Hf.
  - rewrite Hf. left. reflexivity.
  - destruct (f u); [right|]; apply IH; assumption.
Qed.

Lemma same_page_same_task (l : list Task) t u :
  List.NoDup (map t_page l) -> In t l -> In u l -> t_page t = t_page u -> t = u.
Proof.
  induction l as [|v l IH]; simpl; [intros _ []|].
  intros Hnd. apply List.NoDup_cons_iff in Hnd. destruct Hnd as [Hnotin Hnd].
  intros [->|Ht] [->|Hu] Hp; try reflexivity.
  - exfalso. apply Hnotin. rewrite Hp. apply in_map, Hu.
  - exfalso. apply Hnotin. rewrite <- Hp. apply in_map, Ht.
  - apply IH; assumption.
Qed.

(** Every panic of main.go is a batch lost.  When the process has died of
    a panic, the channel is closed, the loop of [fetchProducts] has
    launched every task, and some task is panicking: its page was fetched,
    the fetch succeeded, and its batch has never entered the channel. *)
Theorem current_panic_is_lost_batch s :
  rev = Current -> reachable s -> status s = Some ExitPanic ->
  chan_closed s = true /\
  map t_page (tasks s) = seq 0 pageMax /\
  exists g t,
    tasks s !! g = Some t /\
    panicking (t_pc t) = true /\
    (exists response, fetchData (t_page t) = Some response) /\
    In (t_page t) (fetched s) /\
    ~ In (t_page t) (sent s).
Proof.
  intros Hrev Hr Hst. destruct (inv_reachable s Hr) as [I D _ P _].
  specialize (P Hrev Hst).
  split; [apply (ci_panicking _ I P)|].
  split; [apply current_ended_all_launched; [assumption..|congruence]|].
  destruct (count_pos_lookup panicking (tasks s) P) as (g & t & Hg & Hp).
  assert (Hin : In t (tasks s))
    by (apply list_elem_of_In, list_elem_of_lookup; eauto).
  exists g, t. split; [exact Hg|]. split; [exact Hp|].
  pose proof (Forall_lookup_1 _ _ _ _ (di_tasks _ D) Hg) as Hok.
  unfold task_ok, succeeds in Hok.
  split; [|split].
  - destruct (t_pc t) as [| | |[]|[]| |]; try discriminate Hp;
      destruct (fetchData (t_page t)); try discriminate Hok; eauto.
  - eapply Permutation_in; [symmetry; apply (di_fetched _ D)|].
    apply In_pages_where; [exact Hin|].
    destruct (t_pc t); try discriminate Hp; reflexivity.
  - intros Hs.
    eapply Permutation_in in Hs; [|apply (di_sent _ D)].
    apply pages_where_In in Hs. destruct Hs as (u & Hu & Hpage & Hsent).
    assert (Heq : u = t).
    { eapply same_page_same_task; try eassumption.
      rewrite (ci_pages _ I). apply seq_NoDup. }
    subst u. unfold has_sent in Hsent.
    destruct (t_pc t) as [| | |[]|[]| |]; discriminate.
Qed.



(** ** A ceiling of zero *)




(** ** The CSV file of the earlier revision, at any time *)



(** ** The log *)

Lemma logged_pages_snoc lg e :
  logged_pages (lg ++ [e]) = logged_pages lg ++ log_page e.
Proof. unfold logged_pages. rewrite flat_map_app. simpl. now rewrite app_nil_r. Qed.

Lemma log_inv_init : log_inv init.
Proof. split; simpl; constructor. Qed.

Lemma log_inv_step a s s' : log_inv s -> step a s = Some s' -> log_inv s'.
Proof.
  intros [Lp Lt] Hs. unfold step in Hs. destruct (status s); [discriminate|].
  destruct a as [| | |g].
  - unfold step_main in Hs.
    destruct (m_pc s); break_step Hs; split; proj_simpl;
      rewrite ?logged_pages_snoc; simpl; rewrite ?app_nil_r; try assumption;
      apply Forall_app; split; try assumption; repeat constructor.
  - unfold step_dispatcher in Hs.
    destruct (d_pc s); break_step Hs; split; proj_simpl;
      rewrite ?pages_where_app; simpl; rewrite ?app_nil_r; assumption.
  - unfold step_consumer in Hs.
    destruct (c_pc s); break_step Hs; split; proj_simpl;
      rewrite ?logged_pages_snoc; simpl; rewrite ?app_nil_r; try assumption;
      apply Forall_app; split; try assumption; repeat constructor.
  - unfold step_task in Hs.
    destruct (tasks s !! g) as [t|] eqn:Hg; [|discriminate].
    destruct (t_pc t) eqn:Hpc; break_step Hs; split; proj_simpl;
      rewrite ?logged_pages_snoc; cbn [log_page];
      try assumption;
      try (apply Forall_app; split; [assumption|]; repeat constructor;
           simpl; eauto);
      try (rewrite (pages_where_insert_same fetch_over (tasks s) g t _ Hg);
           [assumption | unfold fetch_over; cbn [t_pc]; rewrite Hpc; reflexivity]);
      (rewrite (pages_where_insert_gain fetch_over (tasks s) g t _ Hg);
       [ apply Permutation_app_tail; assumption
       | unfold fetch_over; rewrite Hpc; reflexivity
       | reflexivity ]).
Qed.

Lemma log_inv_reachable s : reachable s -> log_inv s.
Proof.
  intros [sched Hr]. revert Hr. generalize log_inv_init. generalize init.
  induction sched as [|a sched IH]; simpl; intros s0 L Hr.
  - injection Hr as <-. exact L.
  - destruct (step a s0) as [s1|] eqn:Hs; [|discriminate].
    eapply IH; [eapply log_inv_step; eassumption | exact Hr].
Qed.

Lemma pages_where_sub f h l :
  (forall t, f t = true -> h t = true) ->
  incl (pages_where f l) (pages_where h l).
Proof.
  intros Hfh page Hin. apply pages_where_In in Hin.
  destruct Hin as (t & Ht & <- & Hf). apply In_pages_where; auto.
Qed.

(** The log of [fetchProducts].  In every reachable state of either
    revision the log has one line, and no more, for every page whose
    [fetchData] has returned, and none for any other page; the line tells
    the truth: an error line stands for a fetch that failed, a page line
    for one that succeeded and carries the number of products of that
    page; and once [wg.Wait()] has returned the pages of the log are
    exactly those of [0, pageMax). *)
Theorem log_one_line_per_page s :
  reachable s ->
  List.NoDup (logged_pages (log s)) /\
  Forall log_true (log s) /\
  (forall g t, tasks s !! g = Some t ->
     (In (t_page t) (logged_pages (log s)) <-> fetch_over t = true)) /\
  (forall page, In page (logged_pages (log s)) ->
     page < pageMax /\ In page (fetched s)) /\
  (m_past_wait (m_pc s) = true ->
     Permutation (logged_pages (log s)) (seq 0 pageMax)).
Proof.
  intros Hr. destruct (log_inv_reachable s Hr) as [Lp Lt].
  destruct (inv_reachable s Hr) as [I D _ _ _].
  pose proof (ci_pages _ I) as Ipages.
  assert (Hnd : List.NoDup (map t_page (tasks s)))
    by (rewrite Ipages; apply seq_NoDup).
  split; [|split; [exact Lt|split; [|split]]].
  - eapply Permutation_NoDup; [symmetry; exact Lp|]. now apply NoDup_pages_where.
  - intros g t Hg.
    assert (Hin : In t (tasks s))
      by (apply list_elem_of_In, list_elem_of_lookup; eauto).
    split.
    + intros Hl. eapply Permutation_in in Hl; [|exact Lp].
      apply pages_where_In in Hl. destruct Hl as (u & Hu & Hpage & Hf).
      now rewrite <- (same_page_same_task _ _ _ Hnd Hu Hin Hpage).
    + intros Hf. eapply Permutation_in; [symmetry; exact Lp|].
      now apply In_pages_where.
  - intros page Hl. eapply Permutation_in in Hl; [|exact Lp]. split.
    + apply pages_where_incl in Hl. rewrite Ipages in Hl. apply in_seq in Hl.
      pose proof (ci_bound _ I) as Ibound.
      destruct (d_pc s); simpl in Hl; lia.
    + eapply Permutation_in; [symmetry; apply (di_fetched _ D)|].
      eapply pages_where_sub; [|exact Hl].
      intros t. unfold fetch_over. destruct (t_pc t); try discriminate; reflexivity.
  - intros Hpast. destruct (past_wait_all_over s Hr Hpast) as (Hpages & Hcount & _).
    rewrite Lp, <- Hpages. rewrite pages_where_all; [reflexivity|].
    intros t Ht. unfold fetch_over.
    destruct (count_counted_zero _ Hcount t Ht) as [-> | ->]; reflexivity.
Qed.

(** ** The requests *)

Lemma string_app_inv_head (a b c : string) :
  (a ++ b)%string = (a ++ c)%string -> b = c.
Proof.
  induction a as [|x a IH]; simpl; intros H; [exact H|].
  injection H as H. apply IH, H.
Qed.

Lemma sprint_d_inj n m : sprint_d n = sprint_d m -> n = m.
Proof.
  unfold sprint_d. intros H.
  apply (f_equal NilEmpty.uint_of_string) in H. rewrite !NilEmpty.usu in H.
  injection H as H. apply (f_equal Nat.of_uint) in H.
  now rewrite !DecimalNat.Unsigned.of_to in H.
Qed.

Lemma page_url_inj base page page' :
  page_url base page = page_url base page' -> page = page'.
Proof. unfold page_url. intros H. apply sprint_d_inj, (string_app_inv_head base), H. Qed.

Lemma NoDup_map_page_url base l :
  List.NoDup l -> List.NoDup (map (page_url base) l).
Proof.
  induction l as [|page l IH]; simpl; intros Hnd; [constructor|].
  apply List.NoDup_cons_iff in Hnd. destruct Hnd as [Hnotin Hnd].
  constructor; [|apply IH, Hnd].
  intros Hin. apply in_map_iff in Hin. destruct Hin as (page' & Heq & Hin).
  apply page_url_inj in Heq. subst page'. contradiction.
Qed.

(** No address is requested twice.  The address a task passes to
    [fetchData] is [baseURL] followed by the decimal digits of its page,
    different pages give different addresses, and in every reachable state
    of either revision the addresses that [fetchData] has been called with
    are pairwise distinct and are addresses of pages of [0, pageMax). *)
Theorem no_url_requested_twice s :
  reachable s ->
  List.NoDup (map (page_url baseURL) (fetched s)) /\
  (forall url, In url (map (page_url baseURL) (fetched s)) ->
     exists page, page < pageMax /\ url = page_url baseURL page) /\
  (forall base page page', page_url base page = page_url base page' <-> page = page') /\
  baseURL
  = "https://www.oreilly.com/search/api/search/?q=*&type=book&order_by=published_at&rows=100&language=en&page=" /\
  page_url "page=" 0 = "page=0" /\ page_url "page=" 99 = "page=99".
Proof.
  intros Hr. destruct (inv_reachable s Hr) as [I D _ _ _].
  pose proof (ci_pages _ I) as Ipages. pose proof (ci_bound _ I) as Ibound.
  pose proof (di_fetched _ D) as Dfetched.
  assert (Hnd : List.NoDup (fetched s)).
  { eapply Permutation_NoDup; [symmetry; exact Dfetched|].
    apply NoDup_pages_where. rewrite Ipages. apply seq_NoDup. }
  split; [apply NoDup_map_page_url, Hnd|]. split; [|split].
  - intros url Hin. apply in_map_iff in Hin. destruct Hin as (page & <- & Hin).
    exists page. split; [|reflexivity].
    eapply Permutation_in in Hin; [|exact Dfetched].
    apply pages_where_incl in Hin. rewrite Ipages in Hin. apply in_seq in Hin.
    destruct (d_pc s); simpl in Hin; lia.
  - intros base page page'. split; [apply page_url_inj | now intros ->].
  - repeat split.
Qed.

(** ** More on formatCategories *)

Lemma first_labels_take categories :
  first_labels (map (take 1) categories) = first_labels categories.
Proof.
  unfold first_labels.
  induction categories as [|category rest IH]; [reflexivity|].
  simpl. rewrite IH. now destruct category.
Qed.

Lemma concat_sep_app (l1 l2 : list string) :
  l1 <> [] -> l2 <> [] ->
  String.concat " > " (l1 ++ l2)
  = (String.concat " > " l1 ++ " > " ++ String.concat " > " l2)%string.
Proof.
  intros H1 H2. induction l1 as [|a l1 IH]; [congruence|].
  destruct l1 as [|b l1].
  - destruct l2; [congruence|]. reflexivity.
  - change (String.concat " > " ((a :: b :: l1) ++ l2))
      with (a ++ " > " ++ String.concat " > " ((b :: l1) ++ l2))%string.
    rewrite IH by discriminate.
    change (String.concat " > " (a :: b :: l1))
      with (a ++ " > " ++ String.concat " > " (b :: l1))%string.
    now rewrite !string_app_assoc.
Qed.

(** What [formatCategories] keeps and what it drops.  Only the first label
    of a path counts: cutting every path down to its first label changes
    nothing, so the deeper levels of a category are lost.  And the function
    goes through a forest part by part: the result for two forests one
    after the other is the two results joined by the separator, or the
    result of the one when the other has no label at all. *)
Theorem formatCategories_heads_and_parts :
  (forall categories,
      formatCategories (map (take 1) categories) = formatCategories categories) /\
  (forall l1 l2,
      first_labels l1 <> [] -> first_labels l2 <> [] ->
      formatCategories (l1 ++ l2)
      = Return (flattened l1 ++ " > " ++ flattened l2)%string) /\
  (forall l1 l2,
      first_labels l2 = [] -> formatCategories (l1 ++ l2) = formatCategories l1) /\
  (forall l1 l2,
      first_labels l1 = [] -> formatCategories (l1 ++ l2) = formatCategories l2).
Proof.
  split; [|split; [|split]].
  - intros categories. rewrite !formatCategories_spec. unfold flattened.
    now rewrite first_labels_take.
  - intros l1 l2 H1 H2. rewrite formatCategories_spec. unfold flattened.
    rewrite first_labels_app. now rewrite concat_sep_app.
  - intros l1 l2 H2. rewrite !formatCategories_spec. unfold flattened.
    rewrite first_labels_app, H2. now rewrite app_nil_r.
  - intros l1 l2 H1. rewrite !formatCategories_spec. unfold flattened.
    rewrite first_labels_app, H1. reflexivity.
Qed.

(** ** fetchData *)

(** [fetchData] under an arbitrary environment.  It sends at most one
    request, to the address it was given, with the method GET and after
    both headers were set; every response body it has opened is closed
    when it returns, also when decoding fails, and it closes nothing it
    has not opened; it returns no error exactly when the address was
    accepted, the request answered and the body decoded, and the response
    is then the decoded one; with every error it returns the zero
    [Response], never a partly decoded one.  So the remote end as a task
    sees it answers a page exactly when all three steps succeed. *)
Theorem fetchData_outcome env apiURL :
  let result := fst (Net.fetchData env apiURL) in
  let calls := snd (Net.fetchData env apiURL) in
  (Net.requests calls = [] \/ Net.requests calls = [apiURL]) /\
  (Net.requests calls = [apiURL] ->
     exists rest,
       calls = [ Net.EvNewRequest "GET" apiURL true;
                 Net.EvHeaderAdd "referer" "https://www.oreilly.com/";
                 Net.EvHeaderAdd "user-agent" Net.user_agent ] ++ rest) /\
  Net.open_bodies calls 0 = 0 /\
  (In Net.EvBodyClose calls <-> In (Net.EvDo apiURL true) calls) /\
  (snd result = None <->
     Net.request_ok env apiURL = true /\ Net.transport_ok env apiURL = true /\
     Net.decoded env apiURL = Some (fst result)) /\
  (snd result <> None -> fst result = Net.zero) /\
  (forall page,
      Net.remote env page
      = if Net.request_ok env (page_url baseURL page)
           && Net.transport_ok env (page_url baseURL page)
        then Net.decoded env (page_url baseURL page) else None).
Proof.
  unfold Net.remote, Net.fetchData.
  split; [|split; [|split; [|split; [|split; [|split]]]]].
  - destruct (Net.request_ok env apiURL), (Net.transport_ok env apiURL),
      (Net.decoded env apiURL); simpl; auto.
  - destruct (Net.request_ok env apiURL), (Net.transport_ok env apiURL),
      (Net.decoded env apiURL); simpl; intros H; try discriminate H; eauto.
  - destruct (Net.request_ok env apiURL), (Net.transport_ok env apiURL),
      (Net.decoded env apiURL); reflexivity.
  - destruct (Net.request_ok env apiURL), (Net.transport_ok env apiURL),
      (Net.decoded env apiURL); simpl; split; intros H;
      repeat (destruct H as [H|H]; try discriminate H); auto 10.
  - destruct (Net.request_ok env apiURL), (Net.transport_ok env apiURL),
      (Net.decoded env apiURL); simpl; split; intros H;
      try discriminate H; auto; destruct H as (H1 & H2 & H3); discriminate.
  - destruct (Net.request_ok env apiURL), (Net.transport_ok env apiURL),
      (Net.decoded env apiURL); simpl; intros H; congruence.
  - intros page.
    destruct (Net.request_ok env _), (Net.transport_ok env _),
      (Net.decoded env _); reflexivity.
Qed.

(** ** The columns of lists *)

Lemma concat_cons_nonempty sep x (l : list string) :
  l <> [] -> String.concat sep (x :: l) = (x ++ sep ++ String.concat sep l)%string.
Proof. destruct l; [congruence | reflexivity]. Qed.

Lemma concat_space_split xs : forall a b ys,
  String.concat " " (xs ++ (a ++ " " ++ b)%string :: ys)
  = String.concat " " (xs ++ a :: b :: ys).
Proof.
  induction xs as [|x xs IH]; intros a b ys; cbn [app].
  - rewrite (concat_cons_nonempty " " a) by discriminate.
    destruct ys as [|y ys]; [reflexivity|].
    rewrite !(concat_cons_nonempty " " _ (y :: ys)) by discriminate.
    now rewrite !string_app_assoc.
  - rewrite !(concat_cons_nonempty " " x) by (destruct xs; discriminate).
    now rewrite IH.
Qed.

(** The columns that hold a list do not determine the list.  [writeCSV]
    prints the authors (and the publishers) with the verb [%v]: the
    elements with one space between them, in brackets.  An author whose
    name has a space in it and two authors print alike, so two products
    that differ in this way have the same record. *)
Theorem csv_authors_column_is_ambiguous p q xs a b ys :
  same_but_authors p q ->
  Authors p = xs ++ (a ++ " " ++ b)%string :: ys ->
  Authors q = xs ++ a :: b :: ys ->
  csv_record p = csv_record q /\ Authors p <> Authors q.
Proof.
  intros (Ht & Hd & Hu & Hty & Hl & Hc & Hi & Hp) Hap Haq. split.
  - unfold csv_record, csv_row. rewrite Ht, Hd, Hu, Hty, Hl, Hc, Hi, Hp.
    do 8 f_equal. unfold sprint_v. rewrite Hap, Haq. now rewrite concat_space_split.
  - rewrite Hap, Haq. intros Heq. apply (f_equal (@length string)) in Heq.
    rewrite !length_app in Heq. simpl in Heq. lia.
Qed.
End Machine.

(* ===================================================================== *)
(** * Part VI: the program run on concrete inputs                         *)
(* ===================================================================== *)

Lemma reach_closed_early :
  reachable Current 1 1 fetch_ok never_fails a_date st_closed_early.
Proof. exists sched_close_early. vm_compute. reflexivity. Qed.

Lemma reach_crashed :
  reachable Current 1 1 fetch_ok never_fails a_date st_crashed.
Proof. exists (sched_close_early ++ sched_task_panics). vm_compute. reflexivity. Qed.

Lemma reach_main_won :
  reachable Current 1 1 fetch_ok never_fails a_date st_main_won.
Proof. exists sched_main_wins. vm_compute. reflexivity. Qed.

(** ** main.go closes the channel too early *)

(** C2 (close after all tasks), main.go at one page with ceiling 1: after
    the schedule [sched_close_early] the channel is closed while task 0 has
    been launched and has not even called [fetchData]; three steps of the
    task later its send meets the closed channel and panics, and its batch
    never enters the channel.  So it is not true of main.go that in every
    reachable state with the channel closed every launched task has
    returned. *)
Theorem C2_current_closes_before_tasks_finish :
  reachable Current 1 1 fetch_ok never_fails a_date st_closed_early /\
  chan_closed st_closed_early = true /\
  tasks st_closed_early = [mkTask 0 TStart] /\
  (exists s',
      run Current 1 1 fetch_ok never_fails a_date [ATask 0; ATask 0; ATask 0]
          st_closed_early = Some s' /\
      tasks s' = [mkTask 0 (TRelease true)] /\
      sent s' = [] /\ chan_buf s' = []) /\
  ~ (forall s,
        reachable Current 1 1 fetch_ok never_fails a_date s ->
        chan_closed s = true ->
        forall t, In t (tasks s) -> t_pc t = TExit).
Proof.
  split; [apply reach_closed_early|].
  split; [reflexivity|]. split; [reflexivity|]. split.
  - eexists. split; [vm_compute; reflexivity|]. repeat split.
  - intros Hall.
    specialize (Hall st_closed_early reach_closed_early eq_refl
                     (mkTask 0 TStart) (or_introl eq_refl)).
    discriminate Hall.
Qed.

(** C1 (completeness modulo failures), main.go at one page with ceiling 1,
    the page answering with one book: page 0 succeeds, yet the schedule
    [sched_close_early ++ sched_task_panics] ends the run in a panic with
    [allProducts] empty, the page fetched and its batch never sent.  So it
    is not true of main.go that at the end of every run [allProducts] holds
    the batches of the succeeding pages. *)
Theorem C1_current_loses_batch :
  batch_of fetch_ok 0 = [bookA] /\
  reachable Current 1 1 fetch_ok never_fails a_date st_crashed /\
  status st_crashed = Some ExitPanic /\
  allProducts st_crashed = [] /\
  fetched st_crashed = [0] /\
  sent st_crashed = [] /\
  ~ (forall s,
        reachable Current 1 1 fetch_ok never_fails a_date s ->
        status s <> None ->
        Permutation (allProducts s) (concat (map (batch_of fetch_ok) (seq 0 1)))).
Proof.
  split; [reflexivity|]. split; [apply reach_crashed|]. repeat split.
  intros Hall.
  specialize (Hall st_crashed reach_crashed). simpl in Hall.
  assert (Hp : Permutation [] [bookA]) by (apply Hall; discriminate).
  apply Permutation_length in Hp. discriminate Hp.
Qed.

(** The hypothesis of [current_aggregation_complete] that no task has
    panicked cannot be dropped: the deferred [wg.Done()] of the panicking
    task runs before the process dies, so [wg.Wait()] can return and [main]
    can reach its end first, with [allProducts] empty and both files
    header-only. *)
Lemma main_can_win_the_race :
  reachable Current 1 1 fetch_ok never_fails a_date st_main_won /\
  status st_main_won = Some ExitOK /\
  allProducts st_main_won = [] /\
  world st_main_won = header_only Current a_date.
Proof. split; [apply reach_main_won|]. repeat split. Qed.

(** ** Where the channel is closed in time *)

Lemma current_aggregation_complete_witness :
  Permutation (allProducts st_two_pages)
              (concat (map (batch_of fetch_fail0) (seq 0 2))).
Proof.
  apply (current_aggregation_complete Current 2 1 fetch_fail0 never_fails a_date
           st_two_pages).
  - reflexivity.
  - exists sched_two_pages. vm_compute. reflexivity.
  - reflexivity.
  - reflexivity.
Defined.

Lemma earlier_close_after_tasks_witness :
  map t_page (tasks st_earlier_closed) = seq 0 1 /\
  forall t, In t (tasks st_earlier_closed) -> t_pc t = TExit.
Proof.
  destruct (earlier_close_after_tasks Earlier 1 1 fetch_fail0 never_fails a_date
              st_earlier_closed) as (Hp & Hx & _).
  - reflexivity.
  - exists sched_earlier. vm_compute. reflexivity.
  - reflexivity.
  - split; assumption.
Defined.


(** ** The theorems at concrete inputs *)

Lemma C3_concurrency_bound_witness :
  count in_fetch (tasks st_fetching) <= count holds_token (tasks st_fetching) /\
  count holds_token (tasks st_fetching) <= 1 /\
  sem st_fetching = 1.
Proof.
  destruct (C3_concurrency_bound Current 2 1 fetch_ok never_fails a_date st_fetching)
    as (H1 & H2 & H3 & _).
  - exists sched_fetching. vm_compute. reflexivity.
  - split; [exact H1|]. split; [exact H2|]. reflexivity.
Defined.

Lemma C5_zero_pages_witness :
  allProducts st_zero_pages = [] /\
  world st_zero_pages = header_only Current a_date /\
  csv_records (csvFilename Current a_date) (world st_zero_pages) = [csv_header].
Proof.
  destruct (C5_zero_pages Current 0 5 fetch_ok never_fails a_date st_zero_pages)
    as (_ & _ & _ & Ha & _ & _ & _ & _ & Hw & Hc & _).
  - reflexivity.
  - reflexivity.
  - exists sched_zero_pages. vm_compute. reflexivity.
  - split; [exact Ha|]. split; [apply Hw; reflexivity|].
    rewrite (Hw eq_refl). exact Hc.
Defined.

Lemma C6_dispatch_exactly_once_witness :
  map t_page (tasks st_two_pages) = seq 0 2 /\
  Permutation (fetched st_two_pages) (seq 0 2) /\
  length sched_two_pages <= measure 2 fetch_fail0 (init).
Proof.
  destruct (C6_dispatch_exactly_once Current 2 1 fetch_fail0 never_fails a_date
              st_two_pages) as (_ & _ & _ & _ & Hall & Hf & _ & Hlen & _).
  - exists sched_two_pages. vm_compute. reflexivity.
  - split; [apply Hall; reflexivity|]. split; [apply Hf; reflexivity|].
    apply Hlen. vm_compute. reflexivity.
Defined.

Lemma C7_fetch_error_not_fatal_witness :
  ~ In 0 (sent st_fetching) /\
  exists s3,
    run Current 2 1 fetch_fail0 never_fails a_date [ATask 0; ATask 0; ATask 0] st_fetching
    = Some s3 /\
    tasks s3 = [mkTask 0 TExit] /\ log s3 = [LogFetchError 0] /\
    status s3 = None /\ S (sem s3) = 1 /\ S (wg s3) = 3.
Proof.
  destruct (C7_fetch_error_not_fatal Current 2 1 fetch_fail0 never_fails a_date
              st_fetching 0 (mkTask 0 TFetching))
    as (_ & Hsent & _ & _ & Hrun).
  - exists sched_fetching. vm_compute. reflexivity.
  - reflexivity.
  - reflexivity.
  - split; [exact Hsent|].
    destruct (Hrun eq_refl eq_refl)
      as (s1 & s2 & s3 & H1 & H2 & H3 & _ & Ht & Hs & Hw & Hl & Hst & _).
    exists s3. cbn [run]. rewrite H1. cbn beta iota. rewrite H2. cbn beta iota.
    rewrite H3. repeat split; assumption.
Defined.

Lemma C8_output_error_fatal_witness :
  ((forall a, step Current 0 5 fetch_ok first_fails a_date a st_csv_failed = None) /\
   m_pc st_csv_failed = MWriteCSV /\
   ~ In LogPrintln (log st_csv_failed)) /\
  ((forall a, step Current 1 1 fetch_ok ninth_fails a_date a st_md_failed = None) /\
   m_pc st_md_failed = MWriteMD /\
   ~ In LogPrintln (log st_md_failed) /\
   exists s1,
     step Current 1 1 fetch_ok ninth_fails a_date AMain st_md_ready = Some s1 /\
     status s1 = Some (ExitFatal (ErrWriteString "oreilly-book-list-2006-01-02.md")) /\
     m_pc s1 = MWriteMD /\
     forall a, step Current 1 1 fetch_ok ninth_fails a_date a s1 = None).
Proof.
  split.
  - destruct (C8_output_error_fatal Current 0 5 fetch_ok first_fails a_date
                st_csv_failed (ErrCreate "oreilly-book-list-2006-01-02.csv"))
      as (Hstep & _ & Hp & _).
    + reflexivity.
    + exists sched_csv_fails. vm_compute. reflexivity.
    + reflexivity.
    + split; [exact Hstep|]. split; [reflexivity | exact Hp].
  - destruct (C8_output_error_fatal Current 1 1 fetch_ok ninth_fails a_date
                st_md_failed (ErrWriteString "oreilly-book-list-2006-01-02.md"))
      as (Hstep & _ & Hp & _ & _ & _ & Hmd & _).
    + reflexivity.
    + exists (sched_md_ready ++ [AMain]). vm_compute. reflexivity.
    + reflexivity.
    + split; [exact Hstep|]. split; [reflexivity|]. split; [exact Hp|].
      destruct (Hmd st_md_ready (ErrWriteString "oreilly-book-list-2006-01-02.md")
                    (world st_md_failed))
        as (s1 & Hs & Hst & Hm & _ & _ & Hno).
      * reflexivity.
      * reflexivity.
      * vm_compute. reflexivity.
      * exists s1. split; [exact Hs|]. split; [exact Hst|]. split; [exact Hm | exact Hno].
Defined.

Lemma C9_csv_rows_witness :
  csv_records "books.csv" (snd (writeCSV never_fails "books.csv" [bookA] []))
  = [ csv_header;
      [ "Concurrency in Go"; "2017-07-19";
        "https://www.oreilly.com/library/view/-/9781491941959/"; "book"; "en";
        "Programming > Web"; "https://learning.oreilly.com/covers/9781491941959/";
        "[O'Reilly Media, Inc.]"; "[Katherine Cox-Buday]" ] ].
Proof.
  destruct (C9_csv_rows never_fails "books.csv" [bookA] []) as (_ & Hrec & _).
  - intros k. reflexivity.
  - rewrite Hrec. reflexivity.
Defined.

(** ** The order of aggregation *)

(** The order of [allProducts], and with it of the rows of both files, is
    the order in which the batches arrive, not the order of the pages.
    With two pages and a ceiling of two, for any two batches that the
    remote end serves: one schedule of main.go ends aggregation with the
    batch of page 0 first, another with the batch of page 1 first. *)
Theorem aggregation_order_depends_on_schedule (batch0 batch1 : list Product) :
  exists s1 s2,
    run Current 2 2 (fetch_pair batch0 batch1) never_fails a_date
        sched_page_order (init) = Some s1 /\
    run Current 2 2 (fetch_pair batch0 batch1) never_fails a_date
        sched_reverse_order (init) = Some s2 /\
    m_pc s1 = MWriteCSV /\ m_pc s2 = MWriteCSV /\
    status s1 = None /\ status s2 = None /\
    sent s1 = [0; 1] /\ sent s2 = [1; 0] /\
    allProducts s1 = batch0 ++ batch1 /\
    allProducts s2 = batch1 ++ batch0.
Proof.
  eexists. eexists.
  split; [vm_compute; reflexivity|].
  split; [vm_compute; reflexivity|].
  cbn [m_pc status sent allProducts].
  repeat split; now rewrite ?app_nil_r.
Qed.

(** ** The further properties at concrete inputs *)

Lemma writers_touch_only_their_file_witness :
  csv_records "books.csv"
    (snd (writeMarkdown never_fails "books.md" [bookA]
            (snd (writeCSV never_fails "books.csv" [bookA] []))))
  = csv_records "books.csv" (snd (writeCSV never_fails "books.csv" [bookA] [])).
Proof.
  destruct (writers_touch_only_their_file never_fails "books.md" "books.csv" [bookA]
              (snd (writeCSV never_fails "books.csv" [bookA] [])))
    as (_ & _ & _ & _ & H & _).
  - discriminate.
  - exact H.
Defined.


Lemma current_writes_after_aggregation_witness :
  wg st_csv_failed = 0 /\ c_pc st_csv_failed = CExit /\ chan_buf st_csv_failed = [].
Proof.
  destruct (current_writes_after_aggregation Current 0 5 fetch_ok first_fails a_date
              st_csv_failed) as (_ & Hwg & _ & _ & _ & Hc & _ & Hbuf).
  - reflexivity.
  - exists sched_csv_fails. vm_compute. reflexivity.
  - discriminate.
  - split; [exact Hwg|]. split; [exact Hc | exact Hbuf].
Defined.

Lemma counter_and_close_are_safe_witness : 1 <= wg st_closed_early.
Proof.
  destruct (counter_and_close_are_safe Current 1 1 fetch_ok never_fails a_date
              st_closed_early) as (Hd & _).
  - exists sched_close_early. vm_compute. reflexivity.
  - apply (Hd false). reflexivity.
Defined.

Lemma current_panic_is_lost_batch_witness :
  chan_closed st_crashed = true /\
  exists g t, tasks st_crashed !! g = Some t /\ ~ In (t_page t) (sent st_crashed).
Proof.
  destruct (current_panic_is_lost_batch Current 1 1 fetch_ok never_fails a_date
              st_crashed) as (Hcl & _ & g & t & Hg & _ & _ & _ & Hs).
  - reflexivity.
  - exists (sched_close_early ++ sched_task_panics). vm_compute. reflexivity.
  - reflexivity.
  - split; [exact Hcl|]. exists g, t. split; assumption.
Defined.

Lemma earlier_never_panics_witness :
  status st_earlier_done <> Some ExitPanic /\ c_pc st_earlier_done = CExit.
Proof.
  destruct (earlier_never_panics Earlier 1 1 fetch_ok never_fails a_date
              st_earlier_done) as (Hp & _ & _ & _ & _ & Hok).
  - reflexivity.
  - exists sched_earlier_run. vm_compute. reflexivity.
  - split; [exact Hp|]. apply Hok. reflexivity.
Defined.

Lemma every_run_ends_witness :
  (exists sched s',
      run Current 2 1 fetch_ok never_fails a_date sched st_fetching = Some s' /\
      status s' <> None) /\
  length sched_fetching <= 22 + 11 * 2 + 2.
Proof.
  destruct (every_run_ends Current 2 1 fetch_ok never_fails a_date st_fetching)
    as (_ & Hend & Hlen).
  - left. lia.
  - exists sched_fetching. vm_compute. reflexivity.
  - split; [exact Hend|]. apply Hlen. vm_compute. reflexivity.
Defined.




Lemma log_one_line_per_page_witness :
  List.NoDup (logged_pages (log st_two_pages)) /\
  Permutation (logged_pages (log st_two_pages)) (seq 0 2).
Proof.
  destruct (log_one_line_per_page Current 2 1 fetch_fail0 never_fails a_date
              st_two_pages) as (Hnd & _ & _ & _ & Hall).
  - exists sched_two_pages. vm_compute. reflexivity.
  - split; [exact Hnd | apply Hall; reflexivity].
Defined.

Lemma no_url_requested_twice_witness :
  List.NoDup (map (page_url baseURL) (fetched st_two_pages)).
Proof.
  destruct (no_url_requested_twice Current 2 1 fetch_fail0 never_fails a_date
              st_two_pages) as (Hnd & _).
  - exists sched_two_pages. vm_compute. reflexivity.
  - exact Hnd.
Defined.

Lemma csv_authors_column_is_ambiguous_witness :
  csv_record bookA = csv_record bookA_split /\ Authors bookA <> Authors bookA_split.
Proof.
  apply (csv_authors_column_is_ambiguous bookA bookA_split [] "Katherine" "Cox-Buday" []).
  - repeat split.
  - reflexivity.
  - reflexivity.
Defined.

